(** * antx: the security-policy core

    A shallow embedding of the validators, the HTML sanitizer, the in-memory
    rate limiter, the error mapper and the request-gating middleware of the
    antx authentication application, with the properties its specification
    states about them.

    Conventions.
    - A JavaScript string is the list of its UTF-16 code units ([jsstring]);
      [.length] is [length], and a regular expression without the [u] flag
      matches code unit by code unit.
    - Integer-valued JavaScript numbers (counters, millisecond clocks) are
      [Z].
    - [Date.now()] and the results of awaited calls are explicit arguments;
      a call that may throw yields an [outcome]. *)

From Stdlib Require Import NArith ZArith List String Ascii Bool Lia.
From stdpp Require Import gmap.
Import ListNotations.

Local Open Scope list_scope.

(** ** JavaScript strings *)

Module JS.

Definition jsstring : Type := list N.

(** The code unit of an ASCII character. *)
Definition chr (a : ascii) : N := N_of_ascii a.

Fixpoint bytes (s : string) : list N :=
  match s with
  | EmptyString => []
  | String a t => N_of_ascii a :: bytes t
  end.

(** Continuation bits of a UTF-8 byte. *)
Definition cont (b : N) : N := N.land b 63.

(** Source literals are UTF-8 text; [utf16] turns the bytes of a literal into
    the code units the running program sees.  A truncated sequence (none
    occurs in the literals below) decodes to U+FFFD. *)
Fixpoint utf16 (bs : list N) : jsstring :=
  match bs with
  | [] => []
  | b0 :: t0 =>
    if (b0 <? 128)%N then b0 :: utf16 t0
    else
      match t0 with
      | [] => [65533%N]
      | b1 :: t1 =>
        if (b0 <? 224)%N then
          N.lor (N.shiftl (N.land b0 31) 6) (cont b1) :: utf16 t1
        else
          match t1 with
          | [] => [65533%N]
          | b2 :: t2 =>
            if (b0 <? 240)%N then
              N.lor (N.shiftl (N.land b0 15) 12)
                    (N.lor (N.shiftl (cont b1) 6) (cont b2)) :: utf16 t2
            else
              match t2 with
              | [] => [65533%N]
              | b3 :: t3 =>
                let cp := N.lor (N.shiftl (N.land b0 7) 18)
                            (N.lor (N.shiftl (cont b1) 12)
                               (N.lor (N.shiftl (cont b2) 6) (cont b3))) in
                let v := (cp - 65536)%N in
                (55296 + N.shiftr v 10)%N :: (56320 + N.land v 1023)%N :: utf16 t3
              end
          end
      end
  end.

(** A string literal of the source. *)
Definition lit (s : string) : jsstring := utf16 (bytes s).

(** [s.startsWith(p)] *)
Fixpoint startsWith (s p : jsstring) {struct p} : bool :=
  match p, s with
  | [], _ => true
  | _ :: _, [] => false
  | a :: p', b :: s' => (a =? b)%N && startsWith s' p'
  end.

(** [s.includes(p)] on strings: [p] occurs somewhere in [s]. *)
Fixpoint includes (s p : jsstring) : bool :=
  startsWith s p ||
  match s with
  | [] => false
  | _ :: s' => includes s' p
  end.

(** [s === t] on strings. *)
Fixpoint streq (s t : jsstring) : bool :=
  match s, t with
  | [], [] => true
  | a :: s', b :: t' => (a =? b)%N && streq s' t'
  | _, _ => false
  end.

(** [arr.includes(x)] on an array of strings. *)
Definition arrayIncludes (arr : list jsstring) (x : jsstring) : bool :=
  existsb (streq x) arr.

(** [s.replace(/c/g, rep)] for a one-character pattern [c] and a replacement
    text without [$]. *)
Definition replaceAll (c : N) (rep : jsstring) (s : jsstring) : jsstring :=
  flat_map (fun x => if (x =? c)%N then rep else [x]) s.

End JS.

Import JS.

(** ** Sanitizer *)

Definition AMP : N := chr "&".
Definition LT : N := chr "<".
Definition GT : N := chr ">".
Definition QUOT : N := chr "034".
Definition APOS : N := chr "'".

Definition sanitizeHtml (input : jsstring) : jsstring :=
  replaceAll APOS (lit "&#039;")
    (replaceAll QUOT (lit "&quot;")
       (replaceAll GT (lit "&gt;")
          (replaceAll LT (lit "&lt;")
             (replaceAll AMP (lit "&amp;") input)))).

(** The same escaping written as one left-to-right pass; [sanitizeHtml] is
    proved equal to it below. *)
Definition escapeChar (c : N) : jsstring :=
  if (c =? AMP)%N then lit "&amp;"
  else if (c =? LT)%N then lit "&lt;"
  else if (c =? GT)%N then lit "&gt;"
  else if (c =? QUOT)%N then lit "&quot;"
  else if (c =? APOS)%N then lit "&#039;"
  else [c].

(** The five characters the sanitizer rewrites. *)
Definition isSpecial (c : N) : bool :=
  (c =? AMP)%N || (c =? LT)%N || (c =? GT)%N || (c =? QUOT)%N || (c =? APOS)%N.

(** The escape sequences the sanitizer emits. *)
Definition entities : list jsstring :=
  [lit "&amp;"; lit "&lt;"; lit "&gt;"; lit "&quot;"; lit "&#039;"].

(** Every ampersand of [s] starts one of the emitted escape sequences. *)
Fixpoint ampsEscaped (s : jsstring) : bool :=
  match s with
  | [] => true
  | c :: t =>
    (negb (c =? AMP)%N || existsb (startsWith (c :: t)) entities)
    && ampsEscaped t
  end.

(** ** Regular expressions

    The fragment the validators use: character classes, concatenation,
    alternation, iteration and bounded repetition, without capture or
    look-around, so that [re.test(s)] for an anchored [^...$] pattern is
    membership of [s] in the language of the expression. *)

Module Regex.

Inductive regex : Type :=
| Void : regex
| Eps : regex
| Class : (N -> bool) -> regex
| Cat : regex -> regex -> regex
| Alt : regex -> regex -> regex
| Star : regex -> regex.

(** [r?], [r+] and [r{0,n}] *)
Definition Opt (r : regex) : regex := Alt Eps r.
Definition Plus (r : regex) : regex := Cat r (Star r).
Fixpoint UpTo (n : nat) (r : regex) : regex :=
  match n with
  | O => Eps
  | S k => Opt (Cat r (UpTo k r))
  end.

(** The language of an expression. *)
Inductive Matches : regex -> jsstring -> Prop :=
| MEps : Matches Eps []
| MClass p c : p c = true -> Matches (Class p) [c]
| MCat r1 r2 s1 s2 : Matches r1 s1 -> Matches r2 s2 -> Matches (Cat r1 r2) (s1 ++ s2)
| MAltL r1 r2 s : Matches r1 s -> Matches (Alt r1 r2) s
| MAltR r1 r2 s : Matches r2 s -> Matches (Alt r1 r2) s
| MStar0 r : Matches (Star r) []
| MStarS r s1 s2 : Matches r s1 -> Matches (Star r) s2 -> Matches (Star r) (s1 ++ s2).

(** Smart constructors keep derivatives small. *)
Definition cat (r1 r2 : regex) : regex :=
  match r1, r2 with
  | Void, _ => Void
  | _, Void => Void
  | Eps, _ => r2
  | _, _ => Cat r1 r2
  end.

Definition alt (r1 r2 : regex) : regex :=
  match r1, r2 with
  | Void, _ => r2
  | _, Void => r1
  | _, _ => Alt r1 r2
  end.

Fixpoint nullable (r : regex) : bool :=
  match r with
  | Void => false
  | Eps => true
  | Class _ => false
  | Cat r1 r2 => nullable r1 && nullable r2
  | Alt r1 r2 => nullable r1 || nullable r2
  | Star _ => true
  end.

(** What remains to be matched after reading [c]. *)
Fixpoint deriv (c : N) (r : regex) : regex :=
  match r with
  | Void => Void
  | Eps => Void
  | Class p => if p c then Eps else Void
  | Cat r1 r2 =>
    alt (cat (deriv c r1) r2) (if nullable r1 then deriv c r2 else Void)
  | Alt r1 r2 => alt (deriv c r1) (deriv c r2)
  | Star r1 => cat (deriv c r1) (Star r1)
  end.

(** Whole-string match: [/^r$/.test(s)]. *)
Fixpoint test (r : regex) (s : jsstring) : bool :=
  match s with
  | [] => nullable r
  | c :: t => test (deriv c r) t
  end.

(** Unanchored match of one character class: [/[...]/.test(s)]. *)
Definition testClass (p : N -> bool) (s : jsstring) : bool := existsb p s.

End Regex.

Import Regex.

(** ** Validators *)

Definition inRange (lo hi : ascii) (c : N) : bool :=
  (chr lo <=? c)%N && (c <=? chr hi)%N.

Definition isLower (c : N) : bool := inRange "a" "z" c.
Definition isUpper (c : N) : bool := inRange "A" "Z" c.
Definition isDigit (c : N) : bool := inRange "0" "9" c.
Definition isAlnum (c : N) : bool := isLower c || isUpper c || isDigit c.
Definition oneOf (cs : string) (c : N) : bool := existsb (N.eqb c) (bytes cs).

(** [[a-zA-Z0-9.!#$%&'*+/=?^_`{|}~-]] *)
Definition isLocalChar (c : N) : bool :=
  isAlnum c || oneOf ".!#$%&'*+/=?^_`{|}~-" c.

(** [[a-zA-Z0-9-]] *)
Definition isAlnumDash (c : N) : bool := isAlnum c || (c =? chr "-")%N.

(** [[a-zA-Z0-9](?:[a-zA-Z0-9-]{0,61}[a-zA-Z0-9])?] *)
Definition domainLabel : regex :=
  Cat (Class isAlnum) (Opt (Cat (UpTo 61 (Class isAlnumDash)) (Class isAlnum))).

Definition emailRegex : regex :=
  Cat (Plus (Class isLocalChar))
    (Cat (Class (N.eqb (chr "@")))
       (Cat domainLabel
          (Star (Cat (Class (N.eqb (chr "."))) domainLabel)))).

Definition isValidEmail (email : jsstring) : bool :=
  test emailRegex email && (length email <=? 254)%nat.

Record Validation : Type := { isValid : bool; errors : list jsstring }.

Definition MSG_TOO_SHORT : jsstring :=
  lit "Le mot de passe doit contenir au moins 8 caractères".
Definition MSG_TOO_LONG : jsstring :=
  lit "Le mot de passe ne peut pas dépasser 128 caractères".
Definition MSG_LOWER : jsstring :=
  lit "Le mot de passe doit contenir au moins une minuscule".
Definition MSG_UPPER : jsstring :=
  lit "Le mot de passe doit contenir au moins une majuscule".
Definition MSG_DIGIT : jsstring :=
  lit "Le mot de passe doit contenir au moins un chiffre".
Definition MSG_SYMBOL : jsstring :=
  lit "Le mot de passe doit contenir au moins un caractère spécial".
Definition MSG_COMMON : jsstring :=
  lit "Ce mot de passe est trop commun".

(** The punctuation class of the password check: the characters of the
    literal below and the double quote. *)
Definition isSymbol (c : N) : bool :=
  oneOf "!@#$%^&*()_+-=[]{};':\|,.<>/?" c || (c =? QUOT)%N.

Definition commonPasswords : list jsstring :=
  [lit "password"; lit "123456"; lit "admin"; lit "password123"; lit "qwerty"].

(** [if (cond) errors.push(msg)] *)
Definition pushIf (cond : bool) (msg : jsstring) (errs : list jsstring)
  : list jsstring :=
  if cond then errs ++ [msg] else errs.

Section Password.

(** [String.prototype.toLowerCase], whose Unicode case tables belong to the
    runtime, is taken as given. *)
Variable toLowerCase : jsstring -> jsstring.

Definition validatePassword (password : jsstring) : Validation :=
  let errs := [] in
  let errs := pushIf (length password <? 8)%nat MSG_TOO_SHORT errs in
  let errs := pushIf (128 <? length password)%nat MSG_TOO_LONG errs in
  let errs := pushIf (negb (testClass isLower password)) MSG_LOWER errs in
  let errs := pushIf (negb (testClass isUpper password)) MSG_UPPER errs in
  let errs := pushIf (negb (testClass isDigit password)) MSG_DIGIT errs in
  let errs := pushIf (negb (testClass isSymbol password)) MSG_SYMBOL errs in
  let errs :=
    pushIf (arrayIncludes commonPasswords (toLowerCase password)) MSG_COMMON errs in
  {| isValid := (length errs =? 0)%nat; errors := errs |}.

End Password.

(** Lower-casing of the ASCII letters, the part of [toLowerCase] the examples
    run with. *)
Definition asciiLower (s : jsstring) : jsstring :=
  map (fun c => if isUpper c then (c + 32)%N else c) s.

(** ** Rate limiter *)

(** An entry of [rateLimitStore]. *)
Record RateLimitData : Type := { count : Z; resetTime : Z }.

Definition DEFAULT_MAX_ATTEMPTS : Z := 5.
Definition DEFAULT_WINDOW_MS : Z := 15 * 60 * 1000.

(** [checkRateLimit(identifier, maxAttempts, windowMs)] run at time [now] on
    the store [store]: the answer and the store it leaves.  [data.count++]
    updates the entry held by the map. *)
Definition checkRateLimit (now : Z) (identifier : jsstring)
    (maxAttempts windowMs : Z) (store : gmap jsstring RateLimitData)
  : bool * gmap jsstring RateLimitData :=
  let fresh := {| count := 1; resetTime := now + windowMs |} in
  match store !! identifier with
  | None => (true, <[identifier := fresh]> store)
  | Some data =>
    if (now >? resetTime data)%Z then (true, <[identifier := fresh]> store)
    else if (count data >=? maxAttempts)%Z then (false, store)
    else
      (true,
       <[identifier := {| count := count data + 1; resetTime := resetTime data |}]>
         store)
  end.

(** [cleanupRateLimit()] run at time [now]. *)
Definition cleanupRateLimit (now : Z) (store : gmap jsstring RateLimitData)
  : gmap jsstring RateLimitData :=
  filter (fun kv => ¬ (now > resetTime kv.2)%Z) store.

(** Successive calls for one identifier, at the given times. *)
Fixpoint checkAll (nows : list Z) (identifier : jsstring)
    (maxAttempts windowMs : Z) (store : gmap jsstring RateLimitData)
  : list bool * gmap jsstring RateLimitData :=
  match nows with
  | [] => ([], store)
  | now :: rest =>
    let '(r, store1) := checkRateLimit now identifier maxAttempts windowMs store in
    let '(rs, store2) := checkAll rest identifier maxAttempts windowMs store1 in
    (r :: rs, store2)
  end.

(** The call at time [now] opens a window for [identifier]: there is no
    entry, or the entry's window is over. *)
Definition startsWindow (now : Z) (identifier : jsstring)
    (store : gmap jsstring RateLimitData) : bool :=
  match store !! identifier with
  | None => true
  | Some data => (now >? resetTime data)%Z
  end.

(** ** Error mapper *)

(** The argument of [mapErrorMessage]: [AuthError | string | null | undefined]. *)
Inductive ErrorArg : Type :=
| ErrString (s : jsstring)
| ErrObject (message code : option jsstring)
| ErrNull
| ErrUndefined.

(** [typeof error === 'string' ? error : error?.message] *)
Definition messageOf (error : ErrorArg) : option jsstring :=
  match error with
  | ErrString s => Some s
  | ErrObject message _ => message
  | ErrNull | ErrUndefined => None
  end.

Definition MSG_UNKNOWN : jsstring := lit "Une erreur inconnue est survenue.".
Definition MSG_FALLBACK : jsstring := lit "Une erreur est survenue. Veuillez réessayer.".

(** The mapped text and the arguments of the [console.warn] call, if any. *)
Definition mapErrorMessage (error : ErrorArg) : jsstring * list jsstring :=
  match messageOf error with
  | None => (MSG_UNKNOWN, [])
  | Some [] => (MSG_UNKNOWN, [])
  | Some message =>
    if streq message (lit "Invalid email or password")
       || streq message (lit "Invalid credentials")
    then (lit "Email ou mot de passe incorrect.", [])
    else if streq message (lit "Email not verified")
    then (lit "Veuillez vérifier votre adresse email avant de vous connecter.", [])
    else if streq message (lit "Account banned")
    then (lit "Ce compte est banni.", [])
    else if streq message (lit "User not found")
    then (lit "Utilisateur introuvable.", [])
    else if streq message (lit "Email already exists")
            || streq message (lit "Sign-up attempt for existing email")
    then (lit "Cet email est déjà utilisé. Connectez-vous ou vérifiez vos emails.", [])
    else if streq message (lit "Username already exists")
    then (lit "Ce nom d'utilisateur est déjà pris. Choisissez-en un autre.", [])
    else if streq message (lit "Password too short")
    then (lit "Mot de passe trop court (minimum 8 caractères).", [])
    else if streq message (lit "Invalid email")
    then (lit "Adresse email invalide.", [])
    else if streq message (lit "Missing required field")
    then (lit "Un champ requis est manquant.", [])
    else if streq message (lit "Invalid OTP")
            || streq message (lit "Invalid verification code")
    then (lit "Code de vérification invalide.", [])
    else if streq message (lit "OTP expired")
            || streq message (lit "Verification code expired")
    then (lit "Code de vérification expiré. Demandez un nouveau code.", [])
    else if streq message (lit "Too many OTP attempts")
    then (lit "Trop de tentatives. Veuillez patienter avant de réessayer.", [])
    else if streq message
              (lit "You can only send a verification email to an unverified email")
    then (lit "Impossible de renvoyer l'email : cette adresse est déjà vérifiée ou n'existe pas.", [])
    else if streq message (lit "Password reset token expired")
    then (lit "Le lien de réinitialisation a expiré. Demandez un nouveau lien.", [])
    else if streq message (lit "Invalid password reset token")
    then (lit "Lien de réinitialisation invalide.", [])
    else if includes message (lit "rate limit")
            || includes message (lit "too many requests")
    then (lit "Trop de tentatives. Veuillez patienter quelques minutes.", [])
    else if includes message (lit "network") || includes message (lit "fetch")
    then (lit "Erreur de connexion. Vérifiez votre connexion internet.", [])
    else if includes message (lit "server") || includes message (lit "500")
    then (lit "Erreur serveur temporaire. Veuillez réessayer dans quelques instants.", [])
    else if streq message (lit "Organization not found")
    then (lit "Organisation introuvable.", [])
    else if streq message (lit "Organization already exists")
    then (lit "Cette organisation existe déjà.", [])
    else if streq message (lit "Invalid invitation")
    then (lit "Invitation invalide ou expirée.", [])
    else if streq message (lit "User already in organization")
    then (lit "Vous êtes déjà membre de cette organisation.", [])
    else (MSG_FALLBACK, [lit "Unmapped error message:"; message])
  end.

(** The messages [mapErrorMessage] compares with [===]. *)
Definition exactTable : list jsstring :=
  [ lit "Invalid email or password"; lit "Invalid credentials";
    lit "Email not verified"; lit "Account banned"; lit "User not found";
    lit "Email already exists"; lit "Sign-up attempt for existing email";
    lit "Username already exists"; lit "Password too short";
    lit "Invalid email"; lit "Missing required field";
    lit "Invalid OTP"; lit "Invalid verification code";
    lit "OTP expired"; lit "Verification code expired";
    lit "Too many OTP attempts";
    lit "You can only send a verification email to an unverified email";
    lit "Password reset token expired"; lit "Invalid password reset token";
    lit "Organization not found"; lit "Organization already exists";
    lit "Invalid invitation"; lit "User already in organization" ].

(** The keywords [mapErrorMessage] looks for with [includes]. *)
Definition keywords : list jsstring :=
  [ lit "rate limit"; lit "too many requests"; lit "network"; lit "fetch";
    lit "server"; lit "500" ].

(** [message] matches no exact entry and contains no keyword. *)
Definition unmatched (message : jsstring) : bool :=
  negb (arrayIncludes exactTable message)
  && negb (existsb (includes message) keywords).

(** An argument that matches no exact entry and no keyword, the inputs
    without message included. *)
Definition unmatchedArg (error : ErrorArg) : bool :=
  match messageOf error with
  | None => true
  | Some message => unmatched message
  end.

(** ** Request gate *)

(** The result of a call that may throw. *)
Inductive outcome (A : Type) : Type :=
| Returns (a : A)
| Throws (e : jsstring).
Arguments Returns {A} a.
Arguments Throws {A} e.

Definition bind {A B : Type} (m : outcome A) (k : A -> outcome B) : outcome B :=
  match m with
  | Returns a => k a
  | Throws e => Throws e
  end.

Notation "'let*' x ':=' m 'in' k" := (bind m (fun x => k))
  (at level 10, x name, m at level 100, k at level 200).

(** *** [encodeURIComponent] *)

(** [A-Z a-z 0-9 - _ . ! ~ * ' ( )] *)
Definition uriUnescaped (c : N) : bool := isAlnum c || oneOf "-_.!~*'()" c.

Definition hexDigit (d : N) : N :=
  if (d <? 10)%N then (chr "0" + d)%N else (chr "A" + (d - 10))%N.

(** [%XX] for one octet. *)
Definition pct (b : N) : jsstring :=
  [chr "%"; hexDigit (b / 16); hexDigit (b mod 16)].

(** The UTF-8 octets of a code point. *)
Definition utf8 (cp : N) : list N :=
  if (cp <? 128)%N then [cp]
  else if (cp <? 2048)%N then [192 + cp / 64; 128 + cp mod 64]%N
  else if (cp <? 65536)%N then
    [224 + cp / 4096; 128 + (cp / 64) mod 64; 128 + cp mod 64]%N
  else
    [240 + cp / 262144; 128 + (cp / 4096) mod 64;
     128 + (cp / 64) mod 64; 128 + cp mod 64]%N.

Definition isHighSurrogate (c : N) : bool := (55296 <=? c)%N && (c <=? 56319)%N.
Definition isLowSurrogate (c : N) : bool := (56320 <=? c)%N && (c <=? 57343)%N.

Definition URIError : jsstring := lit "URIError: URI malformed".

Fixpoint encodeURIComponent (s : jsstring) : outcome jsstring :=
  match s with
  | [] => Returns []
  | c :: t =>
    if uriUnescaped c then
      let* r := encodeURIComponent t in Returns (c :: r)
    else if isLowSurrogate c then Throws URIError
    else if isHighSurrogate c then
      match t with
      | d :: t' =>
        if isLowSurrogate d then
          let cp := ((c - 55296) * 1024 + (d - 56320) + 65536)%N in
          let* r := encodeURIComponent t' in Returns (flat_map pct (utf8 cp) ++ r)
        else Throws URIError
      | [] => Throws URIError
      end
    else
      let* r := encodeURIComponent t in Returns (flat_map pct (utf8 c) ++ r)
  end.

(** Reading a query value back, for ASCII text: each [%XX] becomes the octet
    it names.  This is what the sign-in page obtains from the [redirect]
    parameter. *)
Definition unhex (x : N) : N :=
  if isDigit x then (x - chr "0")%N else (x - chr "A" + 10)%N.

Fixpoint percentDecode (s : jsstring) : jsstring :=
  match s with
  | [] => []
  | c :: rest =>
    if (c =? chr "%")%N then
      match rest with
      | h :: l :: t => (unhex h * 16 + unhex l)%N :: percentDecode t
      | _ => c :: percentDecode rest
      end
    else c :: percentDecode rest
  end.

Definition isAscii (s : jsstring) : bool := forallb (fun c => (c <? 128)%N) s.

(** *** Responses *)

(** Header names are case-insensitive: the table is keyed by the lower-cased
    name, and [set] replaces any earlier value.  [headersImmutable] is the
    guard of the header list: a response made by [new Response] can be
    written to, one obtained from [fetch] or [Response.redirect] cannot. *)
Record Response : Type := {
  status : Z;
  body : option jsstring;
  headers : gmap jsstring jsstring;
  headersImmutable : bool
}.

Definition headersSet (name value : jsstring) (h : gmap jsstring jsstring)
  : gmap jsstring jsstring :=
  <[asciiLower name := value]> h.

Definition headersGet (name : jsstring) (h : gmap jsstring jsstring)
  : option jsstring :=
  h !! asciiLower name.

(** [new Response(null, { status, headers: { name: value } })] *)
Definition newResponse (st : Z) (name value : jsstring) : Response :=
  {| status := st; body := None; headers := headersSet name value ∅;
     headersImmutable := false |}.

(** The response with one header written. *)
Definition withHeader (name value : jsstring) (r : Response) : Response :=
  {| status := status r; body := body r;
     headers := headersSet name value (headers r);
     headersImmutable := headersImmutable r |}.

Definition TYPE_ERROR : jsstring := lit "TypeError: immutable".

(** [response.headers.set(name, value)]: a [TypeError] when the header list
    is immutable. *)
Definition setHeader (name value : jsstring) (r : Response) : outcome Response :=
  if headersImmutable r then Throws TYPE_ERROR else Returns (withHeader name value r).

(** *** The middleware *)

(** [role?: string | null] is the only field of the user the gate reads. *)
Record User : Type := { userId : jsstring; role : option jsstring }.

Definition Session : Type := jsstring.

Record Locals : Type := { user : option User; session : option Session }.

Definition PRIVATE_PATHS : list jsstring :=
  [ lit "/dashboard"; lit "/profil"; lit "/profile"; lit "/account";
    lit "/admin"; lit "/organisations"; lit "/settings";
    lit "/api/admin"; lit "/api/user" ].

Definition ADMIN_PATHS : list jsstring := [ lit "/admin"; lit "/api/admin" ].

Definition AUTH_PATHS : list jsstring :=
  [ lit "/connexion"; lit "/inscription"; lit "/mot-de-passe-oublie" ].

(** [PATHS.some((path) => url.pathname.startsWith(path))] *)
Definition somePrefix (paths : list jsstring) (pathname : jsstring) : bool :=
  existsb (startsWith pathname) paths.

(** [locals.user.role !== "admin"] *)
Definition notAdmin (u : User) : bool :=
  match role u with
  | Some r => negb (streq r (lit "admin"))
  | None => true
  end.

Definition CSP : jsstring :=
  lit "default-src 'self'; " ++
  lit "script-src 'self' 'unsafe-inline' 'unsafe-eval'; " ++
  lit "style-src 'self' 'unsafe-inline'; " ++
  lit "img-src 'self' data: https:; " ++
  lit "font-src 'self'; " ++
  lit "connect-src 'self'; " ++
  lit "frame-ancestors 'none';".

(** The redirect to the sign-in page. *)
Definition redirectToSignIn (pathname : jsstring) : outcome Response :=
  let* q := encodeURIComponent pathname in
  Returns (newResponse 302 (lit "Location") (lit "/connexion?redirect=" ++ q)).

(** The inner function of [onRequest]: the branch taken for the request.
    [next] is the rest of the chain, which sees the [locals] filled in. *)
Definition route (pathname : jsstring) (locals : Locals)
    (next : Locals -> outcome Response) : outcome Response :=
  if arrayIncludes AUTH_PATHS pathname && bool_decide (is_Some (user locals))
  then Returns (newResponse 302 (lit "Location") (lit "/dashboard"))
  else
    let afterAdminCheck :=
      if somePrefix PRIVATE_PATHS pathname && bool_decide (user locals = None)
      then redirectToSignIn pathname
      else next locals in
    if somePrefix ADMIN_PATHS pathname then
      match user locals with
      | None => redirectToSignIn pathname
      | Some u =>
        if notAdmin u
        then Returns (newResponse 403 (lit "Content-Type") (lit "text/html"))
        else afterAdminCheck
      end
    else afterAdminCheck.

(** The headers of the header block, written on a response.  [nodeEnv] is
    [process.env.NODE_ENV]. *)
Definition addSecurityHeaders (nodeEnv : option jsstring) (r : Response) : Response :=
  let r := withHeader (lit "X-Frame-Options") (lit "DENY") r in
  let r := withHeader (lit "X-Content-Type-Options") (lit "nosniff") r in
  let r := withHeader (lit "Referrer-Policy") (lit "strict-origin-when-cross-origin") r in
  let r := withHeader (lit "X-XSS-Protection") (lit "1; mode=block") r in
  let r := withHeader (lit "Content-Security-Policy") CSP r in
  match nodeEnv with
  | Some env =>
    if streq env (lit "production")
    then withHeader (lit "Strict-Transport-Security")
           (lit "max-age=31536000; includeSubDomains; preload") r
    else r
  | None => r
  end.

(** The header block of [onRequest]: the [set] calls one after the other,
    each of which throws on a response whose headers are immutable.  On a
    response that can be written to it yields [addSecurityHeaders] (see
    [setSecurityHeaders_spec]). *)
Definition setSecurityHeaders (nodeEnv : option jsstring) (r : Response)
  : outcome Response :=
  let* r := setHeader (lit "X-Frame-Options") (lit "DENY") r in
  let* r := setHeader (lit "X-Content-Type-Options") (lit "nosniff") r in
  let* r := setHeader (lit "Referrer-Policy") (lit "strict-origin-when-cross-origin") r in
  let* r := setHeader (lit "X-XSS-Protection") (lit "1; mode=block") r in
  let* r := setHeader (lit "Content-Security-Policy") CSP r in
  match nodeEnv with
  | Some env =>
    if streq env (lit "production")
    then setHeader (lit "Strict-Transport-Security")
           (lit "max-age=31536000; includeSubDomains; preload") r
    else Returns r
  | None => Returns r
  end.

(** The response of the [catch] block. *)
Definition faultResponse : Response :=
  newResponse 500 (lit "Content-Type") (lit "text/html").

(** What [onRequest] hands back: the response and the [console.error] lines. *)
Record Handled : Type := { response : Response; consoleError : list jsstring }.

(** [onRequest].  [getSession] is the result of
    [await auth.api.getSession(...)]: it throws, or returns the pair of user
    and session, or null.  What [next()] resolves to is a [Response], so the
    [instanceof] test before the headers are set holds. *)
Definition onRequest (nodeEnv : option jsstring)
    (getSession : outcome (option (User * Session)))
    (pathname : jsstring) (next : Locals -> outcome Response) : Handled :=
  let tried :=
    let* result := getSession in
    let locals := {| user := fst <$> result; session := snd <$> result |} in
    let* r := route pathname locals next in
    setSecurityHeaders nodeEnv r in
  match tried with
  | Returns r => {| response := r; consoleError := [] |}
  | Throws error =>
    {| response := faultResponse;
       consoleError := [lit "Authentication middleware error:"; error] |}
  end.

(** The header values the specification fixes. *)
Definition hasSecurityHeaders (r : Response) : Prop :=
  headersGet (lit "X-Frame-Options") (headers r) = Some (lit "DENY")
  /\ headersGet (lit "X-Content-Type-Options") (headers r) = Some (lit "nosniff")
  /\ headersGet (lit "Referrer-Policy") (headers r)
     = Some (lit "strict-origin-when-cross-origin")
  /\ headersGet (lit "X-XSS-Protection") (headers r) = Some (lit "1; mode=block")
  /\ exists csp, headersGet (lit "Content-Security-Policy") (headers r) = Some csp
                 /\ includes csp (lit "frame-ancestors 'none'") = true.

(** ** Invariant of the rate-limit store *)

(** Every stored count lies between 1 and [maxAttempts]. *)
Definition boundedCounts (maxAttempts : Z) (store : gmap jsstring RateLimitData)
  : Prop :=
  map_Forall (fun _ data => (1 <= count data <= maxAttempts)%Z) store.

(** The number of calls one window lets through. *)
Definition allowedPerWindow (maxAttempts : Z) : nat := Z.to_nat (Z.max 1 maxAttempts).


(** ** The texts of the error mapper *)

Definition MSG_RATE_LIMIT : jsstring :=
  lit "Trop de tentatives. Veuillez patienter quelques minutes.".
Definition MSG_NETWORK : jsstring :=
  lit "Erreur de connexion. Vérifiez votre connexion internet.".
Definition MSG_SERVER : jsstring :=
  lit "Erreur serveur temporaire. Veuillez réessayer dans quelques instants.".

(** Every text [mapErrorMessage] can return, in the order of the source. *)
Definition userMessages : list jsstring :=
  [ MSG_UNKNOWN;
    lit "Email ou mot de passe incorrect.";
    lit "Veuillez vérifier votre adresse email avant de vous connecter.";
    lit "Ce compte est banni.";
    lit "Utilisateur introuvable.";
    lit "Cet email est déjà utilisé. Connectez-vous ou vérifiez vos emails.";
    lit "Ce nom d'utilisateur est déjà pris. Choisissez-en un autre.";
    lit "Mot de passe trop court (minimum 8 caractères).";
    lit "Adresse email invalide.";
    lit "Un champ requis est manquant.";
    lit "Code de vérification invalide.";
    lit "Code de vérification expiré. Demandez un nouveau code.";
    lit "Trop de tentatives. Veuillez patienter avant de réessayer.";
    lit "Impossible de renvoyer l'email : cette adresse est déjà vérifiée ou n'existe pas.";
    lit "Le lien de réinitialisation a expiré. Demandez un nouveau lien.";
    lit "Lien de réinitialisation invalide.";
    MSG_RATE_LIMIT; MSG_NETWORK; MSG_SERVER;
    lit "Organisation introuvable.";
    lit "Cette organisation existe déjà.";
    lit "Invitation invalide ou expirée.";
    lit "Vous êtes déjà membre de cette organisation.";
    MSG_FALLBACK ].

(** ** The request gate: header names and the first version *)

(** The lower-cased names of the headers the gate sets, the last one in
    production only. *)
Definition SECURITY_HEADER_NAMES : list jsstring :=
  [ lit "x-frame-options"; lit "x-content-type-options"; lit "referrer-policy";
    lit "x-xss-protection"; lit "content-security-policy";
    lit "strict-transport-security" ].

Definition HSTS : jsstring := lit "max-age=31536000; includeSubDomains; preload".

(** The characters [encodeURIComponent] can produce. *)
Definition isUriSafe (c : N) : bool := uriUnescaped c || (c =? chr "%")%N.

(** Code units are 16 bits wide. *)
Definition isCodeUnits (s : jsstring) : bool := forallb (fun c => (c <? 65536)%N) s.

(** The first version of the middleware keeps a shorter list of private
    paths, redirects to the bare sign-in page, sets no header and catches
    nothing: what the session lookup or the chain throws is thrown on. *)
Definition PRIVATE_PATHS_V1 : list jsstring :=
  [ lit "/dashboard"; lit "/profil"; lit "/profile"; lit "/account";
    lit "/admin"; lit "/organisations" ].

Definition onRequestV1 (getSession : outcome (option (User * Session)))
    (pathname : jsstring) (next : Locals -> outcome Response) : outcome Response :=
  let* result := getSession in
  let locals := {| user := fst <$> result; session := snd <$> result |} in
  if somePrefix PRIVATE_PATHS_V1 pathname && bool_decide (user locals = None)
  then Returns (newResponse 302 (lit "Location") (lit "/connexion"))
  else next locals.

(** ** Further validators *)

(** [r{n}] *)
Fixpoint Times (n : nat) (r : regex) : regex :=
  match n with
  | O => Eps
  | S k => Cat r (Times k r)
  end.

(** Any code unit: what may follow, or precede, a pattern anchored at one
    end only. *)
Definition anyUnit : regex := Class (fun _ => true).

(** [/^r/.test(s)] and [/r$/.test(s)] *)
Definition testAtStart (r : regex) (s : jsstring) : bool :=
  test (Cat r (Star anyUnit)) s.
Definition testAtEnd (r : regex) (s : jsstring) : bool :=
  test (Cat (Star anyUnit) r) s.

(** [[a-zA-Z0-9_-]] and [[_-]] *)
Definition isUsernameChar (c : N) : bool := isAlnum c || oneOf "_-" c.
Definition isDashOrUnderscore (c : N) : bool := oneOf "_-" c.

Definition MSG_NAME_SHORT : jsstring :=
  lit "Le nom d'utilisateur doit contenir au moins 3 caractères".
Definition MSG_NAME_LONG : jsstring :=
  lit "Le nom d'utilisateur ne peut pas dépasser 20 caractères".
Definition MSG_NAME_CHARSET : jsstring :=
  lit "Le nom d'utilisateur ne peut contenir que des lettres, chiffres, tirets et underscores".
Definition MSG_NAME_EDGE : jsstring :=
  lit "Le nom d'utilisateur ne peut pas commencer ou finir par un tiret ou underscore".
Definition MSG_NAME_RESERVED : jsstring :=
  lit "Ce nom d'utilisateur est réservé".

Definition reservedUsernames : list jsstring :=
  [ lit "admin"; lit "administrator"; lit "root"; lit "api"; lit "www";
    lit "mail"; lit "ftp"; lit "support" ].

Section Username.

Variable toLowerCase : jsstring -> jsstring.

Definition validateUsername (username : jsstring) : Validation :=
  let errs := [] in
  let errs := pushIf (length username <? 3)%nat MSG_NAME_SHORT errs in
  let errs := pushIf (20 <? length username)%nat MSG_NAME_LONG errs in
  let errs :=
    pushIf (negb (test (Plus (Class isUsernameChar)) username))
      MSG_NAME_CHARSET errs in
  let errs :=
    pushIf (testAtStart (Class isDashOrUnderscore) username
            || testAtEnd (Class isDashOrUnderscore) username)
      MSG_NAME_EDGE errs in
  let errs :=
    pushIf (arrayIncludes reservedUsernames (toLowerCase username))
      MSG_NAME_RESERVED errs in
  {| isValid := (length errs =? 0)%nat; errors := errs |}.

End Username.

(** [/^\d{6}$/.test(otp)] *)
Definition isValidOTP (otp : jsstring) : bool := test (Times 6 (Class isDigit)) otp.

(** The first and the last code unit of a string. *)
Definition firstUnit (s : jsstring) : option N := head s.
Definition lastUnit (s : jsstring) : option N := head (rev s).

(** [p] holds of the optional code unit. *)
Definition holdsOf (p : N -> bool) (o : option N) : bool :=
  match o with
  | Some c => p c
  | None => false
  end.

(** The labels of a domain, joined by dots. *)
Fixpoint joinLabels (first : jsstring) (others : list jsstring) : jsstring :=
  match others with
  | [] => first
  | l :: ls => first ++ chr "." :: joinLabels l ls
  end.

(** A domain label as the pattern of [isValidEmail] has it: 1 to 63 letters,
    digits and hyphens, with no hyphen at either end. *)
Definition isLabel (l : jsstring) : bool :=
  (1 <=? length l)%nat && (length l <=? 63)%nat
  && forallb isAlnumDash l
  && holdsOf isAlnum (firstUnit l) && holdsOf isAlnum (lastUnit l).

(** ** Sending a one-time code *)

(** [!s] on a string. *)
Definition isEmpty (s : jsstring) : bool :=
  match s with
  | [] => true
  | _ :: _ => false
  end.

(** What the dot of a pattern does not match. *)
Definition isLineTerminator (c : N) : bool :=
  (c =? 10)%N || (c =? 13)%N || (c =? 8232)%N || (c =? 8233)%N.

(** The text up to the end of the line, and what follows it. *)
Fixpoint splitLine (s : jsstring) : jsstring * jsstring :=
  match s with
  | [] => ([], [])
  | c :: t =>
    if isLineTerminator c then ([], s)
    else let '(line, rest) := splitLine t in (c :: line, rest)
  end.

(** The part of a line from its last @ on. *)
Fixpoint fromLastAt (line : jsstring) : option jsstring :=
  match line with
  | [] => None
  | c :: t =>
    match fromLastAt t with
    | Some g => Some g
    | None => if (c =? chr "@")%N then Some line else None
    end
  end.

(** [email.replace(re, '$1***$2')], where the pattern [re] is a group of any
    two characters, a greedy run of any characters, and a group made of an @
    and a greedy run of any characters.  At the first place where two
    characters of a line are followed, later on that line, by an @, the line
    from there on is replaced by the two characters, three stars, and the
    line from its last @ on (the greedy run gives back as little as it must).
    Where no place matches, the string is unchanged. *)
Fixpoint maskEmail (s : jsstring) : jsstring :=
  match s with
  | [] => []
  | a :: t =>
    match t with
    | [] => s
    | b :: u =>
      if negb (isLineTerminator a) && negb (isLineTerminator b) then
        let '(line, rest) := splitLine u in
        match fromLastAt line with
        | Some g => a :: b :: lit "***" ++ g ++ rest
        | None => a :: maskEmail t
        end
      else a :: maskEmail t
    end
  end.

(** The lines of a template literal, joined by line feeds. *)
Fixpoint unlines (lines : list jsstring) : jsstring :=
  match lines with
  | [] => []
  | [l] => l
  | l :: ls => l ++ 10%N :: unlines ls
  end.

Definition validTypes : list jsstring :=
  [ lit "sign-in"; lit "email-verification"; lit "forget-password" ].

Definition otpSubject (type : jsstring) : jsstring :=
  if streq type (lit "sign-in") then lit "Code de connexion - ANTX"
  else if streq type (lit "email-verification")
  then lit "Vérifiez votre adresse email - ANTX"
  else lit "Réinitialisation de mot de passe - ANTX".

Definition otpIntro (type : jsstring) : jsstring :=
  if streq type (lit "sign-in") then lit "Voici votre code de connexion :"
  else if streq type (lit "email-verification")
  then lit "Voici votre code de vérification d'email :"
  else lit "Voici votre code de réinitialisation de mot de passe :".

Definition otpHtml (type otp : jsstring) : jsstring :=
  let safeSubject := sanitizeHtml (otpSubject type) in
  let safeOtp := sanitizeHtml otp in
  unlines
    [ [];
      lit "        <!DOCTYPE html>";
      lit "        <html lang=" ++ [QUOT] ++ lit "fr" ++ [QUOT] ++ lit ">";
      lit "        <head>";
      lit "            <meta charset=" ++ [QUOT] ++ lit "UTF-8" ++ [QUOT] ++ lit ">";
      lit "            <meta name=" ++ [QUOT] ++ lit "viewport" ++ [QUOT] ++ lit " content=" ++ [QUOT] ++ lit "width=device-width, initial-scale=1.0" ++ [QUOT] ++ lit ">";
      lit "            <title>" ++ safeSubject ++ lit "</title>";
      lit "            <style>";
      lit "                body { ";
      lit "                    font-family: -apple-system, BlinkMacSystemFont, 'Segoe UI', Roboto, sans-serif; ";
      lit "                    line-height: 1.6; ";
      lit "                    color: #333; ";
      lit "                    max-width: 600px; ";
      lit "                    margin: 0 auto; ";
      lit "                    padding: 20px; ";
      lit "                    background-color: #f5f5f5;";
      lit "                }";
      lit "                .container {";
      lit "                    background: white;";
      lit "                    border-radius: 12px;";
      lit "                    overflow: hidden;";
      lit "                    box-shadow: 0 4px 6px rgba(0, 0, 0, 0.1);";
      lit "                }";
      lit "                .header { ";
      lit "                    background: linear-gradient(135deg, #667eea 0%, #764ba2 100%); ";
      lit "                    color: white; ";
      lit "                    padding: 30px; ";
      lit "                    text-align: center; ";
      lit "                }";
      lit "                .content { ";
      lit "                    padding: 30px; ";
      lit "                }";
      lit "                .otp-code { ";
      lit "                    background: #007bff; ";
      lit "                    color: white; ";
      lit "                    font-size: 32px; ";
      lit "                    font-weight: bold; ";
      lit "                    letter-spacing: 8px; ";
      lit "                    padding: 20px; ";
      lit "                    border-radius: 8px; ";
      lit "                    text-align: center; ";
      lit "                    margin: 20px 0; ";
      lit "                    font-family: monospace;";
      lit "                }";
      lit "                .warning { ";
      lit "                    background: #fff3cd; ";
      lit "                    border: 1px solid #ffeaa7; ";
      lit "                    padding: 15px; ";
      lit "                    border-radius: 4px; ";
      lit "                    margin: 20px 0; ";
      lit "                    color: #856404; ";
      lit "                }";
      lit "                .footer { ";
      lit "                    text-align: center; ";
      lit "                    padding: 20px 30px; ";
      lit "                    background: #f8f9fa; ";
      lit "                    color: #666; ";
      lit "                    font-size: 14px; ";
      lit "                    border-top: 1px solid #eee;";
      lit "                }";
      lit "                .warning ul {";
      lit "                    margin: 10px 0;";
      lit "                    padding-left: 20px;";
      lit "                }";
      lit "            </style>";
      lit "        </head>";
      lit "        <body>";
      lit "            <div class=" ++ [QUOT] ++ lit "container" ++ [QUOT] ++ lit ">";
      lit "                <div class=" ++ [QUOT] ++ lit "header" ++ [QUOT] ++ lit ">";
      lit "                    <h1>🔐 " ++ safeSubject ++ lit "</h1>";
      lit "                </div>";
      lit "                <div class=" ++ [QUOT] ++ lit "content" ++ [QUOT] ++ lit ">";
      lit "                    <p>Bonjour,</p>";
      lit "                    <p>" ++ otpIntro type ++ lit "</p>";
      lit "                    <div class=" ++ [QUOT] ++ lit "otp-code" ++ [QUOT] ++ lit ">" ++ safeOtp ++ lit "</div>";
      lit "                    <div class=" ++ [QUOT] ++ lit "warning" ++ [QUOT] ++ lit ">";
      lit "                        <strong>⚠️ Important - Sécurité:</strong>";
      lit "                        <ul>";
      lit "                            <li>Ce code est valide pendant <strong>10 minutes uniquement</strong></li>";
      lit "                            <li>Ne partagez <strong>jamais</strong> ce code avec qui que ce soit</li>";
      lit "                            <li>Notre équipe ne vous demandera jamais ce code par téléphone ou email</li>";
      lit "                            <li>En cas de doute, contactez notre support</li>";
      lit "                        </ul>";
      lit "                    </div>";
      lit "                    <p>Si vous n'avez pas demandé ce code, vous pouvez ignorer cet email en toute sécurité. Aucune action n'est requise de votre part.</p>";
      lit "                </div>";
      lit "                <div class=" ++ [QUOT] ++ lit "footer" ++ [QUOT] ++ lit ">";
      lit "                    <p><strong>ANTX - Système d'authentification sécurisé</strong></p>";
      lit "                    <p>Ce message a été envoyé automatiquement, merci de ne pas y répondre.</p>";
      lit "                </div>";
      lit "            </div>";
      lit "        </body>";
      lit "        </html>" ].

Definition otpText (type otp : jsstring) : jsstring :=
  let subject := otpSubject type in
  unlines
    [ [];
      subject;
      [];
      lit "Voici votre code : " ++ otp;
      [];
      lit "IMPORTANT - Sécurité:";
      lit "- Ce code est valide pendant 10 minutes uniquement";
      lit "- Ne partagez jamais ce code avec qui que ce soit";
      lit "- Notre équipe ne vous demandera jamais ce code par téléphone ou email";
      lit "- En cas de doute, contactez notre support";
      [];
      lit "Si vous n'avez pas demandé ce code, vous pouvez ignorer cet email en toute sécurité.";
      [];
      lit "ANTX - Système d'authentification sécurisé";
      lit "Ce message a été envoyé automatiquement, merci de ne pas y répondre." ].

(** The argument of [sendEmail]. *)
Record EmailOptions : Type := {
  mailTo : jsstring;
  mailSubject : jsstring;
  mailHtml : jsstring;
  mailText : jsstring
}.

(** What [sendEmail] may throw: an [Error] with its message, or any other
    value. *)
Inductive Thrown : Type :=
| ErrorWith (message : jsstring)
| OtherValue.

(** What the awaited [sendEmail] call comes to.  The transport itself is not
    among the sources; its tests show that it resolves to an object with a
    [success] flag and a message, also when nothing could be sent.  A
    rejected promise is the other way a call can end. *)
Record SendResult : Type := { success : bool; resultMessage : jsstring }.

Inductive SendOutcome : Type :=
| Resolves (result : SendResult)
| Rejects (thrown : Thrown).

(** One run of [sendVerificationOTP]: the message of the error it throws, if
    any, the calls of [sendEmail], and the lines written with [console.log]
    and [console.error]. *)
Record OtpRun : Type := {
  otpThrown : option jsstring;
  otpMails : list EmailOptions;
  otpLog : list jsstring;
  otpErrorLog : list (list jsstring)
}.

Definition otpRejected (message : jsstring) : OtpRun :=
  {| otpThrown := Some message; otpMails := []; otpLog := []; otpErrorLog := [] |}.

Definition MSG_OTP_NOT_SENT : jsstring :=
  lit "Impossible d'envoyer le code de vérification".

(** [sendVerificationOTP({ email, otp, type })].  The value [sendEmail]
    resolves to is not looked at. *)
Definition sendVerificationOTP (sendEmail : EmailOptions -> SendOutcome)
    (email otp type : jsstring) : OtpRun :=
  if isEmpty email || isEmpty otp || isEmpty type
  then otpRejected (lit "Missing required parameters")
  else if negb (isValidEmail email) then otpRejected (lit "Invalid email format")
  else if negb (isValidOTP otp) then otpRejected (lit "Invalid OTP format")
  else if negb (arrayIncludes validTypes type)
  then otpRejected (lit "Invalid OTP type")
  else
    let mail := {| mailTo := email; mailSubject := otpSubject type;
                   mailHtml := otpHtml type otp; mailText := otpText type otp |} in
    let announced := lit "Sending OTP to " ++ maskEmail email ++ lit " for " ++ type in
    match sendEmail mail with
    | Resolves _ =>
      {| otpThrown := None; otpMails := [mail];
         otpLog := [announced; lit "OTP sent successfully for " ++ type];
         otpErrorLog := [] |}
    | Rejects error =>
      {| otpThrown := Some MSG_OTP_NOT_SENT; otpMails := [mail];
         otpLog := [announced];
         otpErrorLog :=
           [[lit "Erreur envoi OTP:";
             match error with
             | ErrorWith message => message
             | OtherValue => lit "Unknown error"
             end]] |}
    end.

(** Mail transports for the examples: one that sends everything, and one
    that sends nothing and says so in its result. *)
Definition acceptingTransport (_ : EmailOptions) : SendOutcome :=
  Resolves {| success := true; resultMessage := lit "Email envoyé avec succès" |}.
Definition failingTransport (_ : EmailOptions) : SendOutcome :=
  Resolves {| success := false; resultMessage := lit "Données d'email invalides" |}.

(** Sample data for the examples: a signed-in member without admin role, an
    administrator, and a rest of the chain that serves a page. *)
Definition member : User := {| userId := lit "u1"; role := Some (lit "user") |}.
Definition administrator : User := {| userId := lit "u2"; role := Some (lit "admin") |}.
Definition servePage (_ : Locals) : outcome Response :=
  Returns {| status := 200; body := Some (lit "<html></html>");
             headers := headersSet (lit "Content-Type") (lit "text/html") ∅;
             headersImmutable := false |}.

(** A rest of the chain that hands back a response it fetched elsewhere,
    whose headers cannot be written. *)
Definition relayPage (_ : Locals) : outcome Response :=
  Returns {| status := 200; body := Some (lit "<html></html>");
             headers := headersSet (lit "Content-Type") (lit "text/html") ∅;
             headersImmutable := true |}.

(** * Properties *)

(** ** Strings *)

Lemma streq_eq (s t : jsstring) : streq s t = true <-> s = t.
Proof.
  revert t. induction s as [|a s IH]; intros [|b t]; simpl; split;
    try congruence; try discriminate.
  - intros H. apply andb_true_iff in H as [Hab Hst].
    apply N.eqb_eq in Hab. apply IH in Hst. congruence.
  - intros H. injection H as -> ->. rewrite N.eqb_refl. simpl. now apply IH.
Qed.

Lemma startsWith_app (s p : jsstring) :
  startsWith s p = true <-> exists rest, s = p ++ rest.
Proof.
  revert s. induction p as [|a p IH]; intros s; simpl.
  - split; [intros _; now exists s | reflexivity].
  - destruct s as [|b s].
    + split; [discriminate | intros [rest H]; discriminate].
    + rewrite andb_true_iff, N.eqb_eq, IH. split.
      * intros [-> [rest ->]]. now exists rest.
      * intros [rest H]. injection H as -> ->. split; [reflexivity | now exists rest].
Qed.

Lemma arrayIncludes_In (arr : list jsstring) (x : jsstring) :
  arrayIncludes arr x = true <-> In x arr.
Proof.
  unfold arrayIncludes. rewrite existsb_exists. split.
  - intros [y [Hy Hxy]]. apply streq_eq in Hxy. now subst.
  - intros H. exists x. split; [exact H | now apply streq_eq].
Qed.

(** ** Sanitizer *)

Lemma replaceAll_app c rep (a b : jsstring) :
  replaceAll c rep (a ++ b) = replaceAll c rep a ++ replaceAll c rep b.
Proof. unfold replaceAll. apply flat_map_app. Qed.

Lemma sanitizeHtml_app (a b : jsstring) :
  sanitizeHtml (a ++ b) = sanitizeHtml a ++ sanitizeHtml b.
Proof. unfold sanitizeHtml. now rewrite !replaceAll_app. Qed.

Lemma escapeChar_other (c : N) : isSpecial c = false -> escapeChar c = [c].
Proof.
  unfold isSpecial, escapeChar. intros H.
  repeat (apply orb_false_iff in H as [H ?]).
  now repeat match goal with E : (_ =? _)%N = false |- _ => rewrite E; clear E end.
Qed.

Lemma sanitizeHtml_single (c : N) : sanitizeHtml [c] = escapeChar c.
Proof.
  destruct (isSpecial c) eqn:Hc.
  - unfold isSpecial in Hc.
    repeat (apply orb_true_iff in Hc as [Hc|Hc]);
      apply N.eqb_eq in Hc; subst c; reflexivity.
  - rewrite (escapeChar_other c Hc). unfold isSpecial in Hc.
    repeat (apply orb_false_iff in Hc as [Hc ?]).
    unfold sanitizeHtml, replaceAll. simpl.
    repeat match goal with
           | E : (c =? ?k)%N = false |- _ => rewrite E; simpl; clear E
           end.
    reflexivity.
Qed.

(** The five successive replacements amount to one pass over the input. *)
Lemma sanitizeHtml_cons (c : N) (s : jsstring) :
  sanitizeHtml (c :: s) = escapeChar c ++ sanitizeHtml s.
Proof.
  change (c :: s) with ([c] ++ s).
  now rewrite sanitizeHtml_app, sanitizeHtml_single.
Qed.

Lemma escapeChar_special (c : N) :
  isSpecial c = true -> In (escapeChar c) entities.
Proof.
  unfold isSpecial. intros H.
  repeat (apply orb_true_iff in H as [H|H]);
    apply N.eqb_eq in H; subst c; simpl; tauto.
Qed.

Lemma escapeChar_no_markup (c x : N) :
  In x (escapeChar c) -> x <> LT /\ x <> GT /\ x <> QUOT /\ x <> APOS.
Proof.
  destruct (isSpecial c) eqn:Hc.
  - unfold isSpecial in Hc.
    repeat (apply orb_true_iff in Hc as [Hc|Hc]);
      apply N.eqb_eq in Hc; subst c; simpl; intros H;
      repeat (destruct H as [<-|H]; [repeat split; discriminate|]);
      contradiction.
  - rewrite (escapeChar_other c Hc). intros [<-|[]].
    unfold isSpecial in Hc. repeat (apply orb_false_iff in Hc as [Hc ?]).
    repeat match goal with E : (_ =? _)%N = false |- _ => apply N.eqb_neq in E end.
    tauto.
Qed.

Lemma ampsEscaped_escapeChar (c : N) (t : jsstring) :
  ampsEscaped t = true -> ampsEscaped (escapeChar c ++ t) = true.
Proof.
  intros Ht. destruct (isSpecial c) eqn:Hc.
  - unfold isSpecial in Hc.
    repeat (apply orb_true_iff in Hc as [Hc|Hc]);
      apply N.eqb_eq in Hc; subst c; simpl; exact Ht.
  - rewrite (escapeChar_other c Hc). unfold isSpecial in Hc.
    repeat (apply orb_false_iff in Hc as [Hc ?]).
    cbn [app ampsEscaped]. rewrite Hc. simpl. exact Ht.
Qed.

Lemma ampsEscaped_sanitizeHtml (s : jsstring) : ampsEscaped (sanitizeHtml s) = true.
Proof.
  induction s as [|c s IH]; [reflexivity|].
  rewrite sanitizeHtml_cons. now apply ampsEscaped_escapeChar.
Qed.

(** What [ampsEscaped] decides. *)
Lemma ampsEscaped_spec (s : jsstring) :
  ampsEscaped s = true ->
  forall pre suf, s = pre ++ AMP :: suf ->
    exists e rest, In e entities /\ AMP :: suf = e ++ rest.
Proof.
  intros Hs pre. revert s Hs. induction pre as [|p pre IH]; intros s Hs suf ->.
  - cbn [app ampsEscaped] in Hs. apply andb_true_iff in Hs as [Hs _].
    rewrite N.eqb_refl in Hs. cbn [negb orb] in Hs.
    apply existsb_exists in Hs as [e [He Hpre]].
    apply startsWith_app in Hpre as [rest Hrest].
    now exists e, rest.
  - cbn [app ampsEscaped] in Hs. apply andb_true_iff in Hs as [_ Hs].
    now apply (IH _ Hs suf).
Qed.

Lemma escapeChar_length (c : N) : 1 <= length (escapeChar c).
Proof.
  destruct (isSpecial c) eqn:Hc.
  - unfold isSpecial in Hc.
    repeat (apply orb_true_iff in Hc as [Hc|Hc]);
      apply N.eqb_eq in Hc; subst c; simpl; lia.
  - rewrite (escapeChar_other c Hc). simpl. lia.
Qed.

Lemma escapeChar_special_length (c : N) :
  isSpecial c = true -> 1 < length (escapeChar c) /\ In AMP (escapeChar c).
Proof.
  unfold isSpecial. intros Hc.
  repeat (apply orb_true_iff in Hc as [Hc|Hc]);
    apply N.eqb_eq in Hc; subst c; simpl; (split; [lia | tauto]).
Qed.

Lemma sanitizeHtml_length (s : jsstring) : length s <= length (sanitizeHtml s).
Proof.
  induction s as [|c s IH]; [simpl; lia|].
  rewrite sanitizeHtml_cons, length_app. pose proof (escapeChar_length c).
  simpl. lia.
Qed.

(** Escaping a string that holds a special character makes it longer and
    leaves an ampersand in it. *)
Lemma sanitizeHtml_grows (s : jsstring) :
  existsb isSpecial s = true ->
  length s < length (sanitizeHtml s) /\ In AMP (sanitizeHtml s).
Proof.
  induction s as [|c s IH]; [discriminate|].
  cbn [existsb]. rewrite sanitizeHtml_cons, length_app. intros H.
  destruct (isSpecial c) eqn:Hc.
  - destruct (escapeChar_special_length c Hc) as [Hl Hin].
    pose proof (sanitizeHtml_length s). split; [simpl; lia|].
    apply in_or_app. now left.
  - destruct (IH H) as [Hl Hin]. pose proof (escapeChar_length c).
    split; [simpl; lia|]. apply in_or_app. now right.
Qed.

(** C6: for every string [s], [sanitizeHtml s] is defined, holds no literal
    less-than, greater-than, double-quote or apostrophe character, and every
    ampersand in it is the first character of one of the emitted escape
    sequences. *)
Theorem sanitizeHtml_output_escaped (s : jsstring) :
  (forall c, In c (sanitizeHtml s) ->
     c <> LT /\ c <> GT /\ c <> QUOT /\ c <> APOS)
  /\ (forall pre suf, sanitizeHtml s = pre ++ AMP :: suf ->
        exists e rest, In e entities /\ AMP :: suf = e ++ rest).
Proof.
  split.
  - induction s as [|x s IH]; [intros c []|].
    intros c. rewrite sanitizeHtml_cons. intros H.
    apply in_app_or in H as [H|H]; [now apply (escapeChar_no_markup x)|now apply IH].
  - apply ampsEscaped_spec, ampsEscaped_sanitizeHtml.
Qed.

(** C7: [sanitizeHtml] is not idempotent: for every string holding one of the
    five special characters a second pass changes the result of the first,
    and the two stated double escapes are the exact outputs. *)
Theorem sanitizeHtml_not_idempotent :
  (forall s, existsb isSpecial s = true ->
     sanitizeHtml (sanitizeHtml s) <> sanitizeHtml s)
  /\ sanitizeHtml (sanitizeHtml (lit "&")) = lit "&amp;amp;"
  /\ sanitizeHtml (sanitizeHtml (lit "<")) = lit "&amp;lt;".
Proof.
  split; [|split; reflexivity].
  intros s Hs Heq. destruct (sanitizeHtml_grows s Hs) as [_ Hamp].
  assert (Hs' : existsb isSpecial (sanitizeHtml s) = true).
  { apply existsb_exists. exists AMP. split; [exact Hamp | reflexivity]. }
  destruct (sanitizeHtml_grows _ Hs') as [Hlen _].
  rewrite Heq in Hlen. lia.
Qed.

Lemma sanitizeHtml_not_idempotent_witness :
  existsb isSpecial (lit "a<b") = true
  /\ sanitizeHtml (sanitizeHtml (lit "a<b")) <> sanitizeHtml (lit "a<b").
Proof.
  split; [reflexivity|].
  apply (proj1 sanitizeHtml_not_idempotent (lit "a<b")). reflexivity.
Defined.

(** C10: [sanitizeHtml] is the identity on every string that holds none of
    the five special characters. *)
Theorem sanitizeHtml_safe_identity (s : jsstring) :
  existsb isSpecial s = false -> sanitizeHtml s = s.
Proof.
  induction s as [|c s IH]; [reflexivity|].
  cbn [existsb]. intros H. apply orb_false_iff in H as [Hc Hs].
  rewrite sanitizeHtml_cons, (escapeChar_other c Hc), (IH Hs). reflexivity.
Qed.

Lemma sanitizeHtml_safe_identity_witness :
  existsb isSpecial (lit "Hello World!") = false
  /\ sanitizeHtml (lit "Hello World!") = lit "Hello World!".
Proof.
  split; [reflexivity|].
  apply (sanitizeHtml_safe_identity (lit "Hello World!")). reflexivity.
Defined.

(** ** The matcher decides the language *)

Section RegexFacts.

Implicit Types (r : regex) (s : jsstring) (c : N).

Lemma Matches_Void s : ~ Matches Void s.
Proof. intros H. inversion H. Qed.

Lemma Matches_Eps s : Matches Eps s <-> s = [].
Proof. split; [intros H; now inversion H | intros ->; constructor]. Qed.

Lemma Matches_Class p s : Matches (Class p) s <-> exists c, s = [c] /\ p c = true.
Proof.
  split.
  - intros H. inversion H; subst. eauto.
  - intros [c [-> Hc]]. now constructor.
Qed.

Lemma Matches_Cat r1 r2 s :
  Matches (Cat r1 r2) s <->
  exists s1 s2, s = s1 ++ s2 /\ Matches r1 s1 /\ Matches r2 s2.
Proof.
  split.
  - intros H. inversion H; subst. eauto.
  - intros (s1 & s2 & -> & H1 & H2). now constructor.
Qed.

Lemma Matches_Alt r1 r2 s : Matches (Alt r1 r2) s <-> Matches r1 s \/ Matches r2 s.
Proof.
  split.
  - intros H. inversion H; subst; tauto.
  - intros [H|H]; [now apply MAltL | now apply MAltR].
Qed.

Lemma Matches_Star_cons r c s :
  Matches (Star r) (c :: s) <->
  exists s1 s2, s = s1 ++ s2 /\ Matches r (c :: s1) /\ Matches (Star r) s2.
Proof.
  split.
  - intros H. remember (Star r) as r0 eqn:Er. remember (c :: s) as s0 eqn:Es.
    revert s Es.
    induction H as [| | | | | |r' s1 s2 H1 _ H2 IH2]; try discriminate.
    injection Er as ->. intros s Es. destruct s1 as [|x s1].
    + apply (IH2 eq_refl s Es).
    + injection Es as -> <-. eauto.
  - intros (s1 & s2 & -> & H1 & H2).
    change (c :: s1 ++ s2) with ((c :: s1) ++ s2). now constructor.
Qed.

Lemma cat_spec r1 r2 s : Matches (cat r1 r2) s <-> Matches (Cat r1 r2) s.
Proof.
  assert (HV1 : forall r, Matches Void s <-> Matches (Cat Void r) s).
  { intros r. split; intros H; [now apply Matches_Void in H|].
    apply Matches_Cat in H as (? & ? & _ & H & _). now apply Matches_Void in H. }
  assert (HV2 : forall r, Matches Void s <-> Matches (Cat r Void) s).
  { intros r. split; intros H; [now apply Matches_Void in H|].
    apply Matches_Cat in H as (? & ? & _ & _ & H). now apply Matches_Void in H. }
  assert (HE : forall r, Matches r s <-> Matches (Cat Eps r) s).
  { intros r. split; intros H.
    - change s with ([] ++ s). constructor; [constructor | exact H].
    - apply Matches_Cat in H as (s1 & s2 & -> & H1 & H2).
      apply Matches_Eps in H1 as ->. exact H2. }
  destruct r1, r2; cbn [cat]; auto; reflexivity.
Qed.

Lemma alt_spec r1 r2 s : Matches (alt r1 r2) s <-> Matches (Alt r1 r2) s.
Proof.
  assert (HL : forall r, Matches r s <-> Matches (Alt Void r) s).
  { intros r. rewrite Matches_Alt. pose proof (Matches_Void s). tauto. }
  assert (HR : forall r, Matches r s <-> Matches (Alt r Void) s).
  { intros r. rewrite Matches_Alt. pose proof (Matches_Void s). tauto. }
  destruct r1, r2; cbn [alt]; auto; reflexivity.
Qed.

Lemma nullable_spec r : nullable r = true <-> Matches r [].
Proof.
  induction r as [| |p|r1 IH1 r2 IH2|r1 IH1 r2 IH2|r1 IH1]; cbn [nullable].
  - split; [discriminate | intros H; now apply Matches_Void in H].
  - split; [constructor | reflexivity].
  - split; [discriminate|]. intros H. apply Matches_Class in H as (c & H & _).
    discriminate.
  - rewrite andb_true_iff, IH1, IH2, Matches_Cat. split.
    + intros [H1 H2]. now exists [], [].
    + intros (s1 & s2 & E & H1 & H2). symmetry in E.
      apply app_eq_nil in E as [-> ->]. tauto.
  - rewrite orb_true_iff, IH1, IH2, Matches_Alt. reflexivity.
  - split; [constructor | reflexivity].
Qed.

Lemma deriv_spec c r : forall s, Matches (deriv c r) s <-> Matches r (c :: s).
Proof.
  induction r as [| |p|r1 IH1 r2 IH2|r1 IH1 r2 IH2|r1 IH1]; intros s; cbn [deriv].
  - split; intros H; now apply Matches_Void in H.
  - split; intros H; [now apply Matches_Void in H | inversion H].
  - rewrite Matches_Class. split.
    + destruct (p c) eqn:Hp; intros H; [|now apply Matches_Void in H].
      apply Matches_Eps in H as ->. eauto.
    + intros (x & E & Hx). injection E as <- ->. rewrite Hx. constructor.
  - rewrite alt_spec, Matches_Alt, cat_spec, !Matches_Cat. split.
    + intros [(s1 & s2 & -> & H1 & H2)|H].
      * exists (c :: s1), s2. apply IH1 in H1. auto.
      * destruct (nullable r1) eqn:Hn; [|now apply Matches_Void in H].
        apply nullable_spec in Hn. apply IH2 in H. now exists [], (c :: s).
    + intros (s1 & s2 & E & H1 & H2). destruct s1 as [|x s1].
      * right. cbn [app] in E. subst s2. apply nullable_spec in H1. rewrite H1.
        now apply IH2.
      * left. injection E as <- ->. exists s1, s2. apply IH1 in H1. auto.
  - rewrite alt_spec, !Matches_Alt, IH1, IH2. reflexivity.
  - rewrite cat_spec, Matches_Cat, Matches_Star_cons. split.
    + intros (s1 & s2 & -> & H1 & H2). apply IH1 in H1. eauto.
    + intros (s1 & s2 & -> & H1 & H2). apply IH1 in H1. eauto.
Qed.

(** [test] answers membership in the language of the expression. *)
Lemma test_spec s : forall r, test r s = true <-> Matches r s.
Proof.
  induction s as [|c s IH]; intros r; cbn [test].
  - apply nullable_spec.
  - rewrite IH. apply deriv_spec.
Qed.

Lemma Matches_Star_class p s : forallb p s = true -> Matches (Star (Class p)) s.
Proof.
  induction s as [|c s IH]; cbn [forallb]; intros H; [constructor|].
  apply andb_true_iff in H as [Hc Hs].
  change (c :: s) with ([c] ++ s). constructor; [now constructor | now apply IH].
Qed.

Lemma Matches_Plus_class p s :
  s <> [] -> forallb p s = true -> Matches (Plus (Class p)) s.
Proof.
  destruct s as [|c s]; [contradiction|]. cbn [forallb]. intros _ H.
  apply andb_true_iff in H as [Hc Hs].
  change (c :: s) with ([c] ++ s).
  constructor; [now constructor | now apply Matches_Star_class].
Qed.

End RegexFacts.

(** ** Validators *)

(** The regular expression itself accepts the over-long address: it is the
    length test that rejects it. *)
Example emailRegex_accepts_long_local_part :
  test emailRegex (repeat (chr "a") 250 ++ lit "@domain.com") = true.
Proof. vm_compute. reflexivity. Qed.

Lemma isValidEmail_length (email : jsstring) :
  254 < length email -> isValidEmail email = false.
Proof.
  intros H. unfold isValidEmail. apply andb_false_iff. right.
  apply Nat.leb_gt. exact H.
Qed.

(** A local part followed by a single domain label, without any dot after
    it, is accepted when it fits the length limit. *)
Lemma isValidEmail_single_label (local label : jsstring) :
  local <> [] -> forallb isLocalChar local = true ->
  test domainLabel label = true ->
  length (local ++ chr "@" :: label) <= 254 ->
  isValidEmail (local ++ chr "@" :: label) = true.
Proof.
  intros Hne Hlocal Hlabel Hlen. unfold isValidEmail.
  apply andb_true_iff. split; [|now apply Nat.leb_le].
  apply test_spec. unfold emailRegex.
  constructor; [now apply Matches_Plus_class|].
  change (chr "@" :: label) with ([chr "@"] ++ label).
  constructor; [constructor; apply N.eqb_refl|].
  rewrite <- (app_nil_r label).
  constructor; [now apply test_spec | constructor].
Qed.

(** C8: [isValidEmail] accepts user@example.com and addresses whose domain
    is a single label without dot, such as user@domain, and rejects user@ and
    every string of more than 254 characters, such as 250 letters a followed
    by @domain.com. *)
Theorem isValidEmail_cases :
  isValidEmail (lit "user@example.com") = true
  /\ isValidEmail (lit "user@domain") = true
  /\ (forall local label,
        local <> [] -> forallb isLocalChar local = true ->
        test domainLabel label = true ->
        length (local ++ chr "@" :: label) <= 254 ->
        isValidEmail (local ++ chr "@" :: label) = true)
  /\ isValidEmail (lit "user@") = false
  /\ (forall email, 254 < length email -> isValidEmail email = false)
  /\ isValidEmail (repeat (chr "a") 250 ++ lit "@domain.com") = false.
Proof.
  split; [vm_compute; reflexivity|]. split; [vm_compute; reflexivity|].
  split; [exact isValidEmail_single_label|].
  split; [vm_compute; reflexivity|].
  split; [exact isValidEmail_length | vm_compute; reflexivity].
Qed.

Lemma isValidEmail_cases_witness :
  254 < length (repeat (chr "a") 250 ++ lit "@domain.com")
  /\ isValidEmail (repeat (chr "a") 250 ++ lit "@domain.com") = false.
Proof.
  assert (H : 254 < length (repeat (chr "a") 250 ++ lit "@domain.com")).
  { rewrite length_app, repeat_length. simpl. lia. }
  split; [exact H|].
  exact (proj1 (proj2 (proj2 (proj2 (proj2 isValidEmail_cases)))) _ H).
Defined.

Lemma pushIf_keeps (cond : bool) (msg x : jsstring) (errs : list jsstring) :
  In x errs -> In x (pushIf cond msg errs).
Proof.
  intros H. unfold pushIf. destruct cond; [|exact H].
  apply in_or_app. now left.
Qed.

Lemma pushIf_pushes (msg : jsstring) (errs : list jsstring) :
  In msg (pushIf true msg errs).
Proof. unfold pushIf. apply in_or_app. right. now left. Qed.

(** A reported violation makes the verdict negative. *)
Lemma validatePassword_invalid toLowerCase (password x : jsstring) :
  In x (errors (validatePassword toLowerCase password)) ->
  isValid (validatePassword toLowerCase password) = false.
Proof.
  unfold validatePassword. cbn [errors isValid].
  match goal with |- In x ?l -> _ => destruct l end.
  - intros [].
  - reflexivity.
Qed.

Lemma validatePassword_short toLowerCase (password : jsstring) :
  length password < 8 ->
  In MSG_TOO_SHORT (errors (validatePassword toLowerCase password)).
Proof.
  intros H. apply Nat.ltb_lt in H.
  unfold validatePassword. cbn [errors]. rewrite H.
  do 6 apply pushIf_keeps. apply pushIf_pushes.
Qed.

Lemma validatePassword_long toLowerCase (password : jsstring) :
  128 < length password ->
  In MSG_TOO_LONG (errors (validatePassword toLowerCase password)).
Proof.
  intros H. apply Nat.ltb_lt in H.
  unfold validatePassword. cbn [errors]. rewrite H.
  do 5 apply pushIf_keeps. apply pushIf_pushes.
Qed.

(** C9: for every password shorter than 8 characters, and for every password
    longer than 128 characters, [validatePassword] answers invalid and its
    error list holds the matching length message, whatever else the password
    contains. *)
Theorem validatePassword_length_violation
    (toLowerCase : jsstring -> jsstring) (password : jsstring) :
  (length password < 8 ->
     isValid (validatePassword toLowerCase password) = false
     /\ In MSG_TOO_SHORT (errors (validatePassword toLowerCase password)))
  /\ (128 < length password ->
        isValid (validatePassword toLowerCase password) = false
        /\ In MSG_TOO_LONG (errors (validatePassword toLowerCase password))).
Proof.
  split; intros H.
  - pose proof (validatePassword_short toLowerCase password H) as Hin.
    split; [now apply (validatePassword_invalid _ _ _ Hin) | exact Hin].
  - pose proof (validatePassword_long toLowerCase password H) as Hin.
    split; [now apply (validatePassword_invalid _ _ _ Hin) | exact Hin].
Qed.

Lemma validatePassword_length_violation_witness :
  (length (lit "Short1!") < 8
   /\ isValid (validatePassword asciiLower (lit "Short1!")) = false
   /\ In MSG_TOO_SHORT (errors (validatePassword asciiLower (lit "Short1!"))))
  /\ (128 < length (repeat (chr "A") 130 ++ lit "1!")
      /\ isValid (validatePassword asciiLower (repeat (chr "A") 130 ++ lit "1!")) = false
      /\ In MSG_TOO_LONG
           (errors (validatePassword asciiLower (repeat (chr "A") 130 ++ lit "1!")))).
Proof.
  assert (H1 : length (lit "Short1!") < 8) by (simpl; lia).
  assert (H2 : 128 < length (repeat (chr "A") 130 ++ lit "1!")).
  { rewrite length_app, repeat_length. simpl. lia. }
  split.
  - split; [exact H1|].
    exact (proj1 (validatePassword_length_violation asciiLower (lit "Short1!")) H1).
  - split; [exact H2|].
    exact (proj2 (validatePassword_length_violation asciiLower
                    (repeat (chr "A") 130 ++ lit "1!")) H2).
Defined.

(** The checks do not stop at the first failure: a short password without
    upper-case letter, digit or symbol gets all four messages. *)
Example validatePassword_reports_all :
  errors (validatePassword asciiLower (lit "weak"))
  = [MSG_TOO_SHORT; MSG_UPPER; MSG_DIGIT; MSG_SYMBOL].
Proof. vm_compute. reflexivity. Qed.

(** ** Rate limiter *)

Section RateLimit.

Implicit Types (store : gmap jsstring RateLimitData) (key : jsstring).

(** A call that opens a window stores a count of one and a new reset time. *)
Lemma checkRateLimit_opens now key maxAttempts windowMs store :
  startsWindow now key store = true ->
  checkRateLimit now key maxAttempts windowMs store
  = (true, <[key := {| count := 1; resetTime := now + windowMs |}]> store).
Proof.
  unfold startsWindow, checkRateLimit.
  destruct (store !! key) as [data|]; [|reflexivity].
  now intros ->.
Qed.

(** A call inside the window and under the limit counts one more. *)
Lemma checkRateLimit_counts now key maxAttempts windowMs store data :
  store !! key = Some data ->
  (now <= resetTime data)%Z -> (count data < maxAttempts)%Z ->
  checkRateLimit now key maxAttempts windowMs store
  = (true,
     <[key := {| count := count data + 1; resetTime := resetTime data |}]> store).
Proof.
  intros Hk Hnow Hcount. unfold checkRateLimit. rewrite Hk.
  destruct (Z.gtb_spec now (resetTime data)); [lia|].
  destruct (Z.geb_spec (count data) maxAttempts); [lia|reflexivity].
Qed.

(** A call inside the window at the limit is refused and changes nothing. *)
Lemma checkRateLimit_refuses now key maxAttempts windowMs store data :
  store !! key = Some data ->
  (now <= resetTime data)%Z -> (maxAttempts <= count data)%Z ->
  checkRateLimit now key maxAttempts windowMs store = (false, store).
Proof.
  intros Hk Hnow Hcount. unfold checkRateLimit. rewrite Hk.
  destruct (Z.gtb_spec now (resetTime data)); [lia|].
  destruct (Z.geb_spec (count data) maxAttempts); [reflexivity|lia].
Qed.

(** Calls for one identifier leave the entries of the others alone. *)
Lemma checkRateLimit_other now key key' maxAttempts windowMs store :
  key <> key' ->
  snd (checkRateLimit now key maxAttempts windowMs store) !! key' = store !! key'.
Proof.
  intros Hne. unfold checkRateLimit.
  destruct (store !! key) as [data|]; cbn [snd].
  - destruct (now >? resetTime data)%Z; cbn [snd];
      [now rewrite lookup_insert_ne|].
    destruct (count data >=? maxAttempts)%Z; cbn [snd];
      [reflexivity | now rewrite lookup_insert_ne].
  - now rewrite lookup_insert_ne.
Qed.

Lemma checkAll_cons now nows key maxAttempts windowMs store :
  checkAll (now :: nows) key maxAttempts windowMs store
  = let first := checkRateLimit now key maxAttempts windowMs store in
    let others := checkAll nows key maxAttempts windowMs (snd first) in
    (fst first :: fst others, snd others).
Proof.
  cbn [checkAll]. destruct (checkRateLimit now key maxAttempts windowMs store) as [r s1].
  cbn [fst snd]. now destruct (checkAll nows key maxAttempts windowMs s1).
Qed.

(** Any number of calls inside the window that fit under the limit all pass,
    and the count grows by their number. *)
Lemma checkAll_within nows key maxAttempts windowMs : forall store data,
  store !! key = Some data ->
  Forall (fun now => (now <= resetTime data)%Z) nows ->
  (count data + Z.of_nat (length nows) <= maxAttempts)%Z ->
  checkAll nows key maxAttempts windowMs store
  = (repeat true (length nows),
     <[key := {| count := count data + Z.of_nat (length nows);
                 resetTime := resetTime data |}]> store).
Proof.
  induction nows as [|now nows IH]; intros store data Hk Hin Hfit.
  - cbn [checkAll length repeat Z.of_nat]. f_equal. symmetry.
    apply insert_id. rewrite Hk. destruct data as [c r]. cbn [count resetTime].
    now rewrite Z.add_0_r.
  - apply Forall_cons in Hin as [Hnow Hin]. cbn [length] in Hfit.
    cbn [checkAll]. rewrite (checkRateLimit_counts _ _ _ _ _ data Hk Hnow) by lia.
    rewrite (IH _ {| count := count data + 1; resetTime := resetTime data |});
      [| apply lookup_insert_eq | exact Hin | cbn [count]; lia].
    cbn [count resetTime length repeat].
    rewrite insert_insert_eq. do 3 f_equal. lia.
Qed.

End RateLimit.

(** C4: with a limit of 5 and any window length, the first five calls for a
    key inside one window pass, the sixth call in that window is refused and
    leaves the stored count and reset time as they were, and a call made once
    the clock has passed the stored reset time passes again, storing a count
    of 1 and a fresh reset time. *)
Theorem checkRateLimit_five_per_window
    (store : gmap jsstring RateLimitData) (key : jsstring)
    (windowMs t1 t2 t3 t4 t5 t6 : Z) :
  startsWindow t1 key store = true ->
  (t2 <= t1 + windowMs)%Z -> (t3 <= t1 + windowMs)%Z -> (t4 <= t1 + windowMs)%Z ->
  (t5 <= t1 + windowMs)%Z -> (t6 <= t1 + windowMs)%Z ->
  let full := <[key := {| count := 5; resetTime := t1 + windowMs |}]> store in
  checkAll [t1; t2; t3; t4; t5] key 5 windowMs store
  = ([true; true; true; true; true], full)
  /\ checkRateLimit t6 key 5 windowMs full = (false, full)
  /\ forall now windowMs', (now > t1 + windowMs)%Z ->
       checkRateLimit now key 5 windowMs' full
       = (true, <[key := {| count := 1; resetTime := now + windowMs' |}]> full).
Proof.
  intros Hopen H2 H3 H4 H5 H6 full.
  assert (Hfull : full !! key = Some {| count := 5; resetTime := t1 + windowMs |})
    by apply lookup_insert_eq.
  split; [|split].
  - rewrite checkAll_cons, (checkRateLimit_opens _ _ _ _ _ Hopen). cbn [fst snd].
    rewrite (checkAll_within [t2; t3; t4; t5] key 5 windowMs _
               {| count := 1; resetTime := t1 + windowMs |});
      [| apply lookup_insert_eq
       | cbn [resetTime]; repeat constructor; assumption
       | cbn [count length]; lia].
    cbn [fst snd count resetTime length repeat]. now rewrite insert_insert_eq.
  - apply (checkRateLimit_refuses _ _ _ _ _ _ Hfull); cbn [count resetTime]; lia.
  - intros now windowMs' Hnow. apply checkRateLimit_opens.
    unfold startsWindow. rewrite Hfull. cbn [resetTime]. lia.
Qed.

Lemma checkRateLimit_five_per_window_witness :
  startsWindow 1000 (lit "test-user") ∅ = true
  /\ checkAll [1000; 1001; 1002; 1003; 1004]%Z (lit "test-user") 5 60000 ∅
     = ([true; true; true; true; true],
        <[lit "test-user" := {| count := 5; resetTime := 61000 |}]> ∅)
  /\ checkRateLimit 1005 (lit "test-user") 5 60000
       (<[lit "test-user" := {| count := 5; resetTime := 61000 |}]> ∅)
     = (false, <[lit "test-user" := {| count := 5; resetTime := 61000 |}]> ∅).
Proof.
  assert (Hopen : startsWindow 1000 (lit "test-user") ∅ = true) by reflexivity.
  split; [exact Hopen|].
  destruct (checkRateLimit_five_per_window ∅ (lit "test-user") 60000
              1000 1001 1002 1003 1004 1005 Hopen) as (H1 & H2 & _);
    try lia.
  split; [exact H1 | exact H2].
Defined.

(** ** Error mapper *)

(** A non-empty message outside the table and without keyword gets the
    generic fallback, and the message is written to the warning log. *)
Lemma mapErrorMessage_unmatched (error : ErrorArg) (message : jsstring) :
  messageOf error = Some message -> message <> [] -> unmatched message = true ->
  mapErrorMessage error = (MSG_FALLBACK, [lit "Unmapped error message:"; message]).
Proof.
  intros Hm Hne Hu. unfold mapErrorMessage. rewrite Hm.
  destruct message as [|c m]; [contradiction|].
  unfold unmatched, arrayIncludes, exactTable, keywords in Hu.
  cbn [existsb] in Hu. apply andb_true_iff in Hu as [Ht Hk].
  apply negb_true_iff in Ht, Hk.
  repeat (apply orb_false_iff in Ht as [? Ht]).
  repeat (apply orb_false_iff in Hk as [? Hk]).
  repeat match goal with
         | E : streq _ _ = false |- _ => rewrite E; clear E
         | E : includes _ _ = false |- _ => rewrite E; clear E
         end.
  reflexivity.
Qed.

(** Without a message, or with an empty one, the answer is the other fixed
    text, and nothing is logged. *)
Lemma mapErrorMessage_no_message (error : ErrorArg) :
  messageOf error = None \/ messageOf error = Some [] ->
  mapErrorMessage error = (MSG_UNKNOWN, []).
Proof. unfold mapErrorMessage. now intros [-> | ->]. Qed.

Lemma MSG_UNKNOWN_not_FALLBACK : MSG_UNKNOWN <> MSG_FALLBACK.
Proof. discriminate. Qed.

(** C3, as the code has it: [mapErrorMessage] is total; every argument whose
    message is a non-empty string that matches no table entry and holds no
    keyword yields the fixed generic fallback, and every argument without
    message (null, undefined, an object without message) or with an empty
    message yields another fixed text, different from the fallback. *)
Theorem mapErrorMessage_fallbacks :
  (forall error message,
      messageOf error = Some message -> message <> [] -> unmatched message = true ->
      fst (mapErrorMessage error) = MSG_FALLBACK)
  /\ (forall error,
        messageOf error = None \/ messageOf error = Some [] ->
        fst (mapErrorMessage error) = MSG_UNKNOWN)
  /\ MSG_UNKNOWN <> MSG_FALLBACK.
Proof.
  split; [|split].
  - intros error message Hm Hne Hu.
    now rewrite (mapErrorMessage_unmatched error message Hm Hne Hu).
  - intros error H. now rewrite (mapErrorMessage_no_message error H).
  - exact MSG_UNKNOWN_not_FALLBACK.
Qed.

Lemma mapErrorMessage_fallbacks_witness :
  (messageOf (ErrObject (Some (lit "Unknown complex error")) None)
   = Some (lit "Unknown complex error")
   /\ lit "Unknown complex error" <> []
   /\ unmatched (lit "Unknown complex error") = true
   /\ fst (mapErrorMessage (ErrObject (Some (lit "Unknown complex error")) None))
      = MSG_FALLBACK)
  /\ (messageOf ErrNull = None /\ fst (mapErrorMessage ErrNull) = MSG_UNKNOWN).
Proof.
  assert (Hne : lit "Unknown complex error" <> []) by discriminate.
  split.
  - split; [reflexivity|]. split; [exact Hne|]. split; [reflexivity|].
    exact (proj1 mapErrorMessage_fallbacks
             (ErrObject (Some (lit "Unknown complex error")) None)
             (lit "Unknown complex error") eq_refl Hne eq_refl).
  - split; [reflexivity|].
    exact (proj1 (proj2 mapErrorMessage_fallbacks) ErrNull (or_introl eq_refl)).
Defined.

(** C3 as stated fails: null, the empty string and a never-seen string all
    match no table entry and no keyword, yet the first two are not answered
    with the text the third gets. *)
Lemma mapErrorMessage_two_fallbacks :
  unmatchedArg ErrNull = true
  /\ unmatchedArg (ErrString []) = true
  /\ unmatchedArg (ErrString (lit "some never-seen string")) = true
  /\ fst (mapErrorMessage ErrNull)
     <> fst (mapErrorMessage (ErrString (lit "some never-seen string")))
  /\ fst (mapErrorMessage (ErrString []))
     <> fst (mapErrorMessage (ErrString (lit "some never-seen string"))).
Proof. repeat split; try reflexivity; discriminate. Qed.

(** ** Request gate *)

Lemma headersGet_set_eq name value h :
  headersGet name (headersSet name value h) = Some value.
Proof. unfold headersGet, headersSet. apply lookup_insert_eq. Qed.

Lemma headersGet_set_ne name name' value h :
  asciiLower name' <> asciiLower name ->
  headersGet name (headersSet name' value h) = headersGet name h.
Proof. intros H. unfold headersGet, headersSet. now apply lookup_insert_ne. Qed.

Ltac other_header := rewrite headersGet_set_ne by (vm_compute; discriminate).

(** The five headers are on whatever response [addSecurityHeaders] returns. *)
Lemma addSecurityHeaders_sets nodeEnv (r : Response) :
  hasSecurityHeaders (addSecurityHeaders nodeEnv r).
Proof.
  assert (Hcsp : includes CSP (lit "frame-ancestors 'none'") = true)
    by (vm_compute; reflexivity).
  unfold hasSecurityHeaders, addSecurityHeaders.
  destruct nodeEnv as [env|]; [destruct (streq env (lit "production"))|];
    cbn [withHeader headers];
    (repeat split; [..| exists CSP; split; [|exact Hcsp]]);
    repeat other_header; apply headersGet_set_eq.
Qed.

Lemma addSecurityHeaders_status nodeEnv (r : Response) :
  status (addSecurityHeaders nodeEnv r) = status r
  /\ body (addSecurityHeaders nodeEnv r) = body r.
Proof.
  unfold addSecurityHeaders.
  destruct nodeEnv as [env|]; [destruct (streq env (lit "production"))|];
    split; reflexivity.
Qed.

(** A header the gate does not set keeps the value the branch gave it. *)
Lemma addSecurityHeaders_location nodeEnv (r : Response) :
  headersGet (lit "Location") (headers (addSecurityHeaders nodeEnv r))
  = headersGet (lit "Location") (headers r).
Proof.
  unfold addSecurityHeaders.
  destruct nodeEnv as [env|]; [destruct (streq env (lit "production"))|];
    cbn [withHeader headers]; repeat other_header; reflexivity.
Qed.

Lemma addSecurityHeaders_immutable nodeEnv (r : Response) :
  headersImmutable (addSecurityHeaders nodeEnv r) = headersImmutable r.
Proof.
  unfold addSecurityHeaders.
  destruct nodeEnv as [env|]; [destruct (streq env (lit "production"))|];
    reflexivity.
Qed.

(** The header block writes all its headers or none: the first [set] throws
    on a response whose headers are immutable, and none throws otherwise. *)
Lemma setSecurityHeaders_spec nodeEnv (r : Response) :
  setSecurityHeaders nodeEnv r
  = if headersImmutable r then Throws TYPE_ERROR
    else Returns (addSecurityHeaders nodeEnv r).
Proof.
  unfold setSecurityHeaders, addSecurityHeaders, setHeader.
  destruct r as [st b h im]. cbn [headersImmutable withHeader].
  destruct im; cbn [bind headersImmutable withHeader status body headers].
  - reflexivity.
  - destruct nodeEnv as [env|]; [destruct (streq env (lit "production"))|];
      reflexivity.
Qed.

(** What [onRequest] does with a response of the chosen branch. *)
Lemma onRequest_of_route nodeEnv result pathname next r :
  route pathname {| user := fst <$> result; session := snd <$> result |} next
  = Returns r ->
  onRequest nodeEnv (Returns result) pathname next
  = if headersImmutable r
    then {| response := faultResponse;
            consoleError := [lit "Authentication middleware error:"; TYPE_ERROR] |}
    else {| response := addSecurityHeaders nodeEnv r; consoleError := [] |}.
Proof.
  intros Hr. unfold onRequest. cbn [bind]. rewrite Hr. cbn [bind].
  rewrite setSecurityHeaders_spec. destruct (headersImmutable r); reflexivity.
Qed.

(** When neither the session lookup nor the chosen branch throws, and the
    headers of the response can be written, the response carries the
    security headers: this covers the redirects, the refusal of
    non-administrators and the pages the chain builds with [new Response]. *)
Lemma onRequest_headers_without_fault nodeEnv result pathname next r :
  route pathname {| user := fst <$> result; session := snd <$> result |} next
  = Returns r ->
  headersImmutable r = false ->
  onRequest nodeEnv (Returns result) pathname next
  = {| response := addSecurityHeaders nodeEnv r; consoleError := [] |}
  /\ hasSecurityHeaders (response (onRequest nodeEnv (Returns result) pathname next)).
Proof.
  intros Hr Him. rewrite (onRequest_of_route _ _ _ _ _ Hr), Him.
  cbn [response]. split; [reflexivity | apply addSecurityHeaders_sets].
Qed.

(** C1 fails on the fault branch: when the session lookup throws, the
    response is the bare 500 of the catch block, without any of the five
    security headers; the same response is returned when the rest of the chain
    throws. *)
Theorem onRequest_fault_without_headers nodeEnv pathname next error :
  let handled := onRequest nodeEnv (Throws error) pathname next in
  response handled = faultResponse
  /\ status (response handled) = 500%Z
  /\ headersGet (lit "X-Frame-Options") (headers (response handled)) = None
  /\ headersGet (lit "X-Content-Type-Options") (headers (response handled)) = None
  /\ headersGet (lit "Referrer-Policy") (headers (response handled)) = None
  /\ headersGet (lit "X-XSS-Protection") (headers (response handled)) = None
  /\ headersGet (lit "Content-Security-Policy") (headers (response handled)) = None
  /\ ~ hasSecurityHeaders (response handled).
Proof.
  cbn zeta. unfold onRequest. cbn [bind response].
  assert (H : headersGet (lit "X-Frame-Options") (headers faultResponse) = None)
    by (vm_compute; reflexivity).
  repeat split; try (vm_compute; reflexivity).
  intros [Hx _]. rewrite H in Hx. discriminate.
Qed.

Example onRequest_next_fault_without_headers :
  let handled :=
    onRequest None (Returns None) (lit "/") (fun _ => Throws (lit "render failed")) in
  response handled = faultResponse
  /\ headersGet (lit "X-Frame-Options") (headers (response handled)) = None.
Proof. vm_compute. split; reflexivity. Qed.

(** *** Encoding of the path in the redirect *)

Lemma unhex_hexDigit (d : N) : (d < 16)%N -> unhex (hexDigit d) = d.
Proof.
  intros Hd. unfold unhex, hexDigit, isDigit, inRange.
  change (chr "0") with 48%N. change (chr "9") with 57%N.
  change (chr "A") with 65%N.
  destruct (N.ltb_spec d 10).
  - replace ((48 <=? 48 + d)%N) with true by (symmetry; apply N.leb_le; lia).
    replace ((48 + d <=? 57)%N) with true by (symmetry; apply N.leb_le; lia).
    cbn [andb]. lia.
  - replace ((65 + (d - 10) <=? 57)%N) with false by (symmetry; apply N.leb_gt; lia).
    rewrite andb_false_r. lia.
Qed.

Lemma percentDecode_pct (c : N) (q : jsstring) :
  (c < 128)%N -> percentDecode (pct c ++ q) = c :: percentDecode q.
Proof.
  intros Hc. unfold pct. cbn [app percentDecode]. rewrite N.eqb_refl.
  rewrite !unhex_hexDigit.
  - f_equal. rewrite N.mul_comm. symmetry. apply N.div_mod. discriminate.
  - apply N.mod_lt. discriminate.
  - apply N.Div0.div_lt_upper_bound. lia.
Qed.

(** On ASCII text, which is what a URL path is, [encodeURIComponent] returns,
    and decoding its result gives the text back. *)
Lemma encodeURIComponent_ascii (s : jsstring) :
  isAscii s = true ->
  exists q, encodeURIComponent s = Returns q /\ percentDecode q = s.
Proof.
  induction s as [|c s IH]; [now exists []|].
  cbn [isAscii forallb]. intros H. apply andb_true_iff in H as [Hc Hs].
  apply N.ltb_lt in Hc. destruct (IH Hs) as (q & Hq & Hdec).
  cbn [encodeURIComponent]. rewrite Hq. cbn [bind].
  destruct (uriUnescaped c) eqn:Hu.
  - exists (c :: q). split; [reflexivity|]. cbn [percentDecode].
    destruct (N.eqb_spec c (chr "%")) as [->|_]; [discriminate Hu|].
    now rewrite Hdec.
  - assert (Hlow : isLowSurrogate c = false).
    { unfold isLowSurrogate. apply andb_false_iff. left. apply N.leb_gt. lia. }
    assert (Hhigh : isHighSurrogate c = false).
    { unfold isHighSurrogate. apply andb_false_iff. left. apply N.leb_gt. lia. }
    rewrite Hlow, Hhigh. unfold utf8.
    replace ((c <? 128)%N) with true by (symmetry; now apply N.ltb_lt).
    cbn [flat_map]. rewrite app_nil_r.
    exists (pct c ++ q). split; [reflexivity|].
    now rewrite percentDecode_pct, Hdec.
Qed.

(** *** The branches *)





(** The example of the specification: /admin without session. *)
Example onRequest_admin_without_session :
  let handled := onRequest None (Returns None) (lit "/admin") servePage in
  status (response handled) = 302%Z
  /\ headersGet (lit "Location") (headers (response handled))
     = Some (lit "/connexion?redirect=%2Fadmin")
  /\ percentDecode (lit "%2Fadmin") = lit "/admin"
  /\ hasSecurityHeaders (response handled).
Proof.
  cbn zeta. split; [|split; [|split]]; try (vm_compute; reflexivity).
  apply onRequest_headers_without_fault with
    (r := newResponse 302 (lit "Location") (lit "/connexion?redirect=%2Fadmin"));
    vm_compute; reflexivity.
Qed.

(** C5, as the code has it: a request with a resolved user whose path is
    exactly one of the auth pages is answered with a 302 redirect to the
    landing page. *)
Theorem onRequest_auth_page_signed_in nodeEnv (pathname : jsstring)
    (u : User) (s : Session) (next : Locals -> outcome Response) :
  arrayIncludes AUTH_PATHS pathname = true ->
  let handled := onRequest nodeEnv (Returns (Some (u, s))) pathname next in
  status (response handled) = 302%Z
  /\ body (response handled) = None
  /\ headersGet (lit "Location") (headers (response handled))
     = Some (lit "/dashboard").
Proof.
  intros Hauth handled. subst handled.
  destruct (onRequest_headers_without_fault nodeEnv (Some (u, s)) pathname next
              (newResponse 302 (lit "Location") (lit "/dashboard")))
    as [-> _].
  { unfold route. cbn [fmap option_fmap option_map user fst].
    rewrite Hauth. rewrite bool_decide_eq_true_2 by eauto. reflexivity. }
  { exact eq_refl. }
  cbn [response].
  destruct (addSecurityHeaders_status nodeEnv
              (newResponse 302 (lit "Location") (lit "/dashboard"))) as [-> ->].
  rewrite addSecurityHeaders_location.
  split; [reflexivity|]. split; [reflexivity|]. apply headersGet_set_eq.
Qed.

Lemma onRequest_auth_page_signed_in_witness :
  arrayIncludes AUTH_PATHS (lit "/connexion") = true
  /\ status (response (onRequest None (Returns (Some (member, lit "token")))
                         (lit "/connexion") servePage)) = 302%Z.
Proof.
  assert (H : arrayIncludes AUTH_PATHS (lit "/connexion") = true) by reflexivity.
  split; [exact H|].
  exact (proj1 (onRequest_auth_page_signed_in None (lit "/connexion") member
                  (lit "token") servePage H)).
Defined.

(** C5 as stated fails: a longer path that begins with an auth-page prefix is
    not redirected for a signed-in user; the page of the chain is served. *)
Lemma onRequest_auth_prefix_served :
  somePrefix AUTH_PATHS (lit "/connexion/aide") = true
  /\ status (response (onRequest None (Returns (Some (member, lit "token")))
                         (lit "/connexion/aide") servePage)) = 200%Z
  /\ status (response (onRequest None (Returns (Some (member, lit "token")))
                         (lit "/connexion/aide") servePage)) <> 302%Z.
Proof. repeat split; try (vm_compute; reflexivity). vm_compute. discriminate. Qed.

(** An administrator on an admin path gets the page of the chain, with the
    security headers added. *)
Example onRequest_admin_served :
  let handled :=
    onRequest None (Returns (Some (administrator, lit "token"))) (lit "/admin/users")
      servePage in
  status (response handled) = 200%Z
  /\ body (response handled) = Some (lit "<html></html>")
  /\ hasSecurityHeaders (response handled).
Proof.
  cbn zeta. split; [|split]; try (vm_compute; reflexivity).
  eapply onRequest_headers_without_fault; vm_compute; reflexivity.
Qed.

(** An administrator on an admin path whose page is a response with
    immutable headers: the first [set] throws, and the bare 500 goes out
    in place of the page. *)
Example onRequest_admin_relayed :
  let handled :=
    onRequest None (Returns (Some (administrator, lit "token"))) (lit "/admin/users")
      relayPage in
  response handled = faultResponse
  /\ consoleError handled = [lit "Authentication middleware error:"; TYPE_ERROR]
  /\ headersGet (lit "X-Frame-Options") (headers (response handled)) = None.
Proof. vm_compute. repeat split; reflexivity. Qed.

(** * Further properties *)

(** ** Classes under iteration and repetition *)

Section ClassFacts.

Implicit Types (p : N -> bool) (s : jsstring).

Lemma Matches_Star_class_iff p s :
  Matches (Star (Class p)) s <-> forallb p s = true.
Proof.
  split; [|apply Matches_Star_class].
  induction s as [|c s IH]; [reflexivity|].
  intros H. apply Matches_Star_cons in H as (s1 & s2 & -> & H1 & H2).
  apply Matches_Class in H1 as (x & E & Hx). injection E as <- ->.
  cbn [app forallb]. rewrite Hx. now apply IH.
Qed.

Lemma Matches_Times_class p n : forall s,
  Matches (Times n (Class p)) s <-> length s = n /\ forallb p s = true.
Proof.
  induction n as [|n IH]; intros s; cbn [Times].
  - rewrite Matches_Eps. split.
    + now intros ->.
    + intros [H _]. now destruct s.
  - rewrite Matches_Cat. split.
    + intros (s1 & s2 & -> & H1 & H2).
      apply Matches_Class in H1 as (c & -> & Hc). apply IH in H2 as [Hl Hp].
      cbn [app length forallb]. rewrite Hc, Hl, Hp. now split.
    + intros [Hl Hp]. destruct s as [|c s]; [discriminate|].
      cbn [forallb] in Hp. apply andb_true_iff in Hp as [Hc Hp].
      exists [c], s. split; [reflexivity|]. split; [now constructor|].
      apply IH. split; [now injection Hl | exact Hp].
Qed.

Lemma Matches_UpTo_class p n : forall s,
  Matches (UpTo n (Class p)) s <-> length s <= n /\ forallb p s = true.
Proof.
  induction n as [|n IH]; intros s; cbn [UpTo]; unfold Opt.
  - rewrite Matches_Eps. split.
    + intros ->. now split.
    + intros [H _]. destruct s; [reflexivity | cbn [length] in H; lia].
  - rewrite Matches_Alt, Matches_Eps, Matches_Cat. split.
    + intros [-> | (s1 & s2 & -> & H1 & H2)].
      * split; [cbn [length]; lia | reflexivity].
      * apply Matches_Class in H1 as (c & -> & Hc). apply IH in H2 as [Hl Hp].
        cbn [app length forallb]. rewrite Hc, Hp. split; [lia | reflexivity].
    + intros [Hl Hp]. destruct s as [|c s]; [now left|]. right.
      cbn [forallb] in Hp. apply andb_true_iff in Hp as [Hc Hp].
      exists [c], s. split; [reflexivity|]. split; [now constructor|].
      apply IH. cbn [length] in Hl. split; [lia | exact Hp].
Qed.

Lemma Matches_anything s : Matches (Star anyUnit) s.
Proof. apply Matches_Star_class. now induction s. Qed.

Lemma testAtStart_class p s :
  testAtStart (Class p) s = holdsOf p (firstUnit s).
Proof.
  apply eq_true_iff_eq. unfold testAtStart. rewrite test_spec, Matches_Cat. split.
  - intros (s1 & s2 & -> & H1 & _). apply Matches_Class in H1 as (c & -> & Hc).
    exact Hc.
  - destruct s as [|c s]; [discriminate|]. cbn [firstUnit head holdsOf]. intros Hc.
    exists [c], s. split; [reflexivity|].
    split; [now constructor | apply Matches_anything].
Qed.

Lemma testAtEnd_class p s :
  testAtEnd (Class p) s = holdsOf p (lastUnit s).
Proof.
  apply eq_true_iff_eq. unfold testAtEnd, lastUnit.
  rewrite test_spec, Matches_Cat. split.
  - intros (s1 & s2 & -> & _ & H2). apply Matches_Class in H2 as (c & -> & Hc).
    rewrite rev_app_distr. exact Hc.
  - destruct (rev s) as [|c r] eqn:E; [discriminate|]. cbn [head holdsOf]. intros Hc.
    exists (rev r), [c]. split.
    + rewrite <- (rev_involutive s), E. reflexivity.
    + split; [apply Matches_anything | now constructor].
Qed.

Lemma test_Plus_class p s :
  test (Plus (Class p)) s = negb (length s =? 0)%nat && forallb p s.
Proof.
  apply eq_true_iff_eq. rewrite test_spec, andb_true_iff, negb_true_iff. split.
  - unfold Plus. intros H. apply Matches_Cat in H as (s1 & s2 & -> & H1 & H2).
    apply Matches_Class in H1 as (c & -> & Hc).
    apply Matches_Star_class_iff in H2. cbn [app length forallb]. now rewrite Hc, H2.
  - intros [Hl Hp]. apply Matches_Plus_class; [|exact Hp].
    intros ->. discriminate.
Qed.

End ClassFacts.

(** ** One-time codes *)

Lemma isValidOTP_digits (otp : jsstring) :
  isValidOTP otp = true <-> length otp = 6 /\ forallb isDigit otp = true.
Proof. unfold isValidOTP. rewrite test_spec. apply Matches_Times_class. Qed.

(** X1: [isValidOTP] accepts exactly the strings of six ASCII digits. *)
Theorem isValidOTP_six_digits (otp : jsstring) :
  isValidOTP otp = true <-> length otp = 6 /\ forallb isDigit otp = true.
Proof. apply isValidOTP_digits. Qed.

(** ** Validation results *)

Lemma pushIf_nil (cond : bool) (msg : jsstring) (errs : list jsstring) :
  pushIf cond msg errs = [] <-> cond = false /\ errs = [].
Proof.
  unfold pushIf. destruct cond.
  - split; [|intros [H _]; discriminate].
    intros H. apply app_eq_nil in H as [_ H]. discriminate.
  - split; [now intros -> | now intros [_ ->]].
Qed.

Lemma length_zero_nil {A : Type} (l : list A) : (length l =? 0)%nat = true <-> l = [].
Proof. destruct l; cbn; split; congruence. Qed.

Lemma isAlnum_range (c : N) :
  isAlnum c = true <->
  (97 <= c <= 122)%N \/ (65 <= c <= 90)%N \/ (48 <= c <= 57)%N.
Proof.
  unfold isAlnum, isLower, isUpper, isDigit, inRange.
  change (chr "a") with 97%N. change (chr "z") with 122%N.
  change (chr "A") with 65%N. change (chr "Z") with 90%N.
  change (chr "0") with 48%N. change (chr "9") with 57%N.
  rewrite !orb_true_iff, !andb_true_iff, !N.leb_le. tauto.
Qed.

Lemma isUsernameChar_range (c : N) :
  isUsernameChar c = true <-> isAlnum c = true \/ c = 95%N \/ c = 45%N.
Proof.
  unfold isUsernameChar, oneOf. cbn [bytes existsb].
  change (N_of_ascii "_") with 95%N. change (N_of_ascii "-") with 45%N.
  rewrite !orb_true_iff, !N.eqb_eq. intuition discriminate.
Qed.

Lemma usernameChar_plain (c : N) :
  isUsernameChar c = true -> isSpecial c = false /\ uriUnescaped c = true.
Proof.
  intros H. apply isUsernameChar_range in H. split.
  - unfold isSpecial, AMP, LT, GT, QUOT, APOS.
    change (chr "&") with 38%N. change (chr "<") with 60%N.
    change (chr ">") with 62%N. change (chr "034") with 34%N.
    change (chr "'") with 39%N.
    rewrite !orb_false_iff, !N.eqb_neq.
    destruct H as [H | [-> | ->]]; [apply isAlnum_range in H; lia | | ];
      repeat split; discriminate.
  - unfold uriUnescaped. destruct H as [-> | [-> | ->]]; reflexivity.
Qed.

(** ** User names *)

Lemma validateUsername_accepts
    (toLowerCase : jsstring -> jsstring) (username : jsstring) :
  isValid (validateUsername toLowerCase username) = true <->
  3 <= length username <= 20
  /\ forallb isUsernameChar username = true
  /\ holdsOf isDashOrUnderscore (firstUnit username) = false
  /\ holdsOf isDashOrUnderscore (lastUnit username) = false
  /\ arrayIncludes reservedUsernames (toLowerCase username) = false.
Proof.
  unfold validateUsername. cbn [isValid].
  rewrite length_zero_nil, !pushIf_nil, testAtStart_class, testAtEnd_class.
  rewrite test_Plus_class, orb_false_iff, negb_false_iff, andb_true_iff.
  rewrite negb_true_iff, !Nat.ltb_ge, Nat.eqb_neq. intuition lia.
Qed.

(** X2: [validateUsername] accepts a name exactly when it has 3 to 20 code
    units, all of them letters, digits, hyphens or underscores, neither the
    first nor the last a hyphen or underscore, and its lower-cased form is not
    reserved. *)
Theorem validateUsername_accepts_iff
    (toLowerCase : jsstring -> jsstring) (username : jsstring) :
  isValid (validateUsername toLowerCase username) = true <->
  3 <= length username <= 20
  /\ forallb isUsernameChar username = true
  /\ holdsOf isDashOrUnderscore (firstUnit username) = false
  /\ holdsOf isDashOrUnderscore (lastUnit username) = false
  /\ arrayIncludes reservedUsernames (toLowerCase username) = false.
Proof. apply validateUsername_accepts. Qed.

(** X3: the violations of a user name are reported together and in the order
    of the checks: the error list is the sub-list of the five messages whose
    checks fail. *)
Theorem validateUsername_errors_in_order
    (toLowerCase : jsstring -> jsstring) (username : jsstring) :
  errors (validateUsername toLowerCase username)
  = map snd
      (List.filter fst
         [ ((length username <? 3)%nat, MSG_NAME_SHORT);
           ((20 <? length username)%nat, MSG_NAME_LONG);
           ((length username =? 0)%nat || negb (forallb isUsernameChar username),
            MSG_NAME_CHARSET);
           (holdsOf isDashOrUnderscore (firstUnit username)
            || holdsOf isDashOrUnderscore (lastUnit username), MSG_NAME_EDGE);
           (arrayIncludes reservedUsernames (toLowerCase username),
            MSG_NAME_RESERVED) ]).
Proof.
  unfold validateUsername. cbn [errors].
  rewrite testAtStart_class, testAtEnd_class, test_Plus_class.
  rewrite negb_andb, negb_involutive.
  generalize (arrayIncludes reservedUsernames (toLowerCase username)).
  generalize (holdsOf isDashOrUnderscore (firstUnit username)
              || holdsOf isDashOrUnderscore (lastUnit username)).
  generalize ((length username =? 0)%nat || negb (forallb isUsernameChar username)).
  generalize (20 <? length username)%nat. generalize (length username <? 3)%nat.
  generalize MSG_NAME_SHORT, MSG_NAME_LONG, MSG_NAME_CHARSET, MSG_NAME_EDGE,
    MSG_NAME_RESERVED.
  intros m1 m2 m3 m4 m5 [] [] [] [] []; reflexivity.
Qed.

(** X4: a user name accepted by [validateUsername] passes through the HTML
    escaping and through the URL encoding unchanged. *)
Theorem validateUsername_accepted_is_plain
    (toLowerCase : jsstring -> jsstring) (username : jsstring) :
  isValid (validateUsername toLowerCase username) = true ->
  sanitizeHtml username = username
  /\ encodeURIComponent username = Returns username.
Proof.
  intros H. apply validateUsername_accepts in H as (_ & Hchars & _).
  clear toLowerCase. induction username as [|c s IH]; [now split|].
  cbn [forallb] in Hchars. apply andb_true_iff in Hchars as [Hc Hs].
  destruct (usernameChar_plain c Hc) as [Hsafe Huri].
  destruct (IH Hs) as [IH1 IH2]. split.
  - rewrite sanitizeHtml_cons, (escapeChar_other c Hsafe), IH1. reflexivity.
  - cbn [encodeURIComponent]. rewrite Huri, IH2. reflexivity.
Qed.

Lemma validateUsername_accepted_is_plain_witness :
  isValid (validateUsername asciiLower (lit "test-user")) = true
  /\ sanitizeHtml (lit "test-user") = lit "test-user"
  /\ encodeURIComponent (lit "test-user") = Returns (lit "test-user").
Proof.
  assert (H : isValid (validateUsername asciiLower (lit "test-user")) = true)
    by (vm_compute; reflexivity).
  split; [exact H|].
  exact (validateUsername_accepted_is_plain asciiLower (lit "test-user") H).
Defined.

(** ** Passwords *)

Lemma In_pushIf (cond : bool) (msg x : jsstring) (errs : list jsstring) :
  In x (pushIf cond msg errs) <-> In x errs \/ (cond = true /\ x = msg).
Proof.
  unfold pushIf. destruct cond.
  - rewrite in_app_iff. cbn [In]. intuition congruence.
  - intuition discriminate.
Qed.

(** X5: [validatePassword] accepts a password exactly when it has 8 to 128
    code units, holds a lower-case letter, an upper-case letter, a digit and
    a symbol of the punctuation class, and its lower-cased form is not on the
    list of common passwords. *)
Theorem validatePassword_accepts_iff
    (toLowerCase : jsstring -> jsstring) (password : jsstring) :
  isValid (validatePassword toLowerCase password) = true <->
  8 <= length password <= 128
  /\ existsb isLower password = true
  /\ existsb isUpper password = true
  /\ existsb isDigit password = true
  /\ existsb isSymbol password = true
  /\ arrayIncludes commonPasswords (toLowerCase password) = false.
Proof.
  unfold validatePassword, testClass. cbn [isValid].
  rewrite length_zero_nil, !pushIf_nil, !negb_false_iff, !Nat.ltb_ge.
  intuition lia.
Qed.

(** X6: the violations of a password are reported together and in the order
    of the checks: the error list is the sub-list of the seven messages whose
    checks fail. *)
Theorem validatePassword_errors_in_order
    (toLowerCase : jsstring -> jsstring) (password : jsstring) :
  errors (validatePassword toLowerCase password)
  = map snd
      (List.filter fst
         [ ((length password <? 8)%nat, MSG_TOO_SHORT);
           ((128 <? length password)%nat, MSG_TOO_LONG);
           (negb (existsb isLower password), MSG_LOWER);
           (negb (existsb isUpper password), MSG_UPPER);
           (negb (existsb isDigit password), MSG_DIGIT);
           (negb (existsb isSymbol password), MSG_SYMBOL);
           (arrayIncludes commonPasswords (toLowerCase password), MSG_COMMON) ]).
Proof.
  unfold validatePassword, testClass. cbn [errors].
  generalize (arrayIncludes commonPasswords (toLowerCase password)).
  generalize (negb (existsb isSymbol password)).
  generalize (negb (existsb isDigit password)).
  generalize (negb (existsb isUpper password)).
  generalize (negb (existsb isLower password)).
  generalize (128 <? length password)%nat. generalize (length password <? 8)%nat.
  generalize MSG_TOO_SHORT, MSG_TOO_LONG, MSG_LOWER, MSG_UPPER, MSG_DIGIT,
    MSG_SYMBOL, MSG_COMMON.
  intros m1 m2 m3 m4 m5 m6 m7 [] [] [] [] [] [] []; reflexivity.
Qed.

Lemma commonPasswords_without_symbol (word : jsstring) :
  arrayIncludes commonPasswords word = true -> existsb isSymbol word = false.
Proof.
  intros H. apply arrayIncludes_In in H. cbn [commonPasswords In] in H.
  repeat (destruct H as [<-|H]; [vm_compute; reflexivity|]). contradiction.
Qed.

(** X7: the list of common passwords never decides alone.  When lower-casing
    keeps the symbols of a string in place, as that of the runtime does, every
    password the list rejects is also reported as lacking a symbol. *)
Theorem validatePassword_common_also_lacks_symbol
    (toLowerCase : jsstring -> jsstring) (password : jsstring) :
  (forall s c, In c s -> isSymbol c = true -> In c (toLowerCase s)) ->
  In MSG_COMMON (errors (validatePassword toLowerCase password)) ->
  In MSG_SYMBOL (errors (validatePassword toLowerCase password)).
Proof.
  intros Hkeep Hcommon.
  assert (Hlisted : arrayIncludes commonPasswords (toLowerCase password) = true).
  { unfold validatePassword in Hcommon. cbn [errors] in Hcommon.
    rewrite !In_pushIf in Hcommon. cbn [In] in Hcommon.
    destruct Hcommon as [H|[H _]]; [|exact H].
    repeat (destruct H as [H|[_ H]]; [|vm_compute in H; discriminate H]).
    contradiction. }
  assert (Hnone : existsb isSymbol password = false).
  { destruct (existsb isSymbol password) eqn:E; [|reflexivity].
    apply existsb_exists in E as (c & Hin & Hc).
    pose proof (commonPasswords_without_symbol _ Hlisted) as Hno.
    assert (Hex : existsb isSymbol (toLowerCase password) = true).
    { apply existsb_exists. exists c. split; [now apply Hkeep | exact Hc]. }
    congruence. }
  unfold validatePassword, testClass. cbn [errors]. rewrite Hnone.
  apply pushIf_keeps. apply pushIf_pushes.
Qed.

Lemma asciiLower_keeps_symbols (s : jsstring) (c : N) :
  In c s -> isSymbol c = true -> In c (asciiLower s).
Proof.
  intros Hin Hc. unfold asciiLower. apply in_map_iff. exists c. split; [|exact Hin].
  destruct (isUpper c) eqn:Hu; [|reflexivity].
  unfold isUpper, inRange in Hu. change (chr "A") with 65%N in Hu.
  change (chr "Z") with 90%N in Hu.
  apply andb_true_iff in Hu as [H1 H2]. apply N.leb_le in H1, H2.
  unfold isSymbol, oneOf, QUOT in Hc. cbn [bytes existsb] in Hc.
  rewrite !orb_true_iff, !N.eqb_eq in Hc.
  exfalso.
  repeat match goal with H : _ \/ _ |- _ => destruct H as [H|H] end;
    try discriminate; subst c; vm_compute in H1, H2;
    first [now apply H1 | now apply H2].
Qed.

Lemma validatePassword_common_also_lacks_symbol_witness :
  In MSG_COMMON (errors (validatePassword asciiLower (lit "Password123")))
  /\ In MSG_SYMBOL (errors (validatePassword asciiLower (lit "Password123"))).
Proof.
  assert (H : In MSG_COMMON (errors (validatePassword asciiLower (lit "Password123"))))
    by (vm_compute; tauto).
  split; [exact H|].
  exact (validatePassword_common_also_lacks_symbol asciiLower (lit "Password123")
           asciiLower_keeps_symbols H).
Defined.

(** ** E-mail addresses *)

Lemma Matches_Star_parts (r : regex) (s : jsstring) :
  Matches (Star r) s <-> exists parts, s = concat parts /\ Forall (Matches r) parts.
Proof.
  split.
  - intros H. remember (Star r) as r0 eqn:Er.
    induction H as [| | | | | |r' s1 s2 H1 _ H2 IH2]; try discriminate.
    + exists []. now split.
    + injection Er as ->. destruct (IH2 eq_refl) as (parts & -> & Hparts).
      exists (s1 :: parts). split; [reflexivity | now constructor].
  - intros (parts & -> & Hparts). induction Hparts as [|p parts Hp _ IH].
    + constructor.
    + cbn [concat]. now constructor.
Qed.

Lemma joinLabels_concat (first : jsstring) (others : list jsstring) :
  joinLabels first others = first ++ concat (map (cons (chr ".")) others).
Proof.
  revert first. induction others as [|l ls IH]; intros first; cbn [joinLabels map concat].
  - now rewrite app_nil_r.
  - now rewrite IH.
Qed.

Lemma lastUnit_snoc (s : jsstring) (z : N) : lastUnit (s ++ [z]) = Some z.
Proof. unfold lastUnit. now rewrite rev_app_distr. Qed.

Lemma isAlnum_isAlnumDash (c : N) : isAlnum c = true -> isAlnumDash c = true.
Proof. unfold isAlnumDash. now intros ->. Qed.

(** The label pattern of the address expression accepts exactly the labels
    described by [isLabel]. *)
Lemma domainLabel_isLabel (l : jsstring) : test domainLabel l = isLabel l.
Proof.
  apply eq_true_iff_eq. rewrite test_spec. unfold domainLabel, Opt, isLabel.
  rewrite Matches_Cat, !andb_true_iff, Nat.leb_le, Nat.leb_le. split.
  - intros (s1 & s2 & -> & H1 & H2). apply Matches_Class in H1 as (a & -> & Ha).
    apply Matches_Alt in H2 as [H2|H2].
    + apply Matches_Eps in H2 as ->. cbn. rewrite Ha, (isAlnum_isAlnumDash a Ha).
      repeat split; lia.
    + apply Matches_Cat in H2 as (mid & e & -> & Hmid & He).
      apply Matches_UpTo_class in Hmid as [Hlen Hmid].
      apply Matches_Class in He as (z & -> & Hz).
      change ([a] ++ mid ++ [z]) with ((a :: mid) ++ [z]).
      rewrite lastUnit_snoc, forallb_app, length_app. cbn [app length forallb firstUnit head holdsOf].
      rewrite Ha, Hz, Hmid, (isAlnum_isAlnumDash a Ha), (isAlnum_isAlnumDash z Hz).
      repeat split; lia.
  - intros ((((Hlo & Hhi) & Hall) & Hfirst) & Hlast).
    destruct l as [|a t]; [discriminate|]. cbn [firstUnit head holdsOf] in Hfirst.
    exists [a], t. split; [reflexivity|]. split; [now constructor|].
    destruct (rev t) as [|z m] eqn:Et.
    + apply (f_equal (@rev N)) in Et. rewrite rev_involutive in Et. subst t.
      apply MAltL. constructor.
    + apply (f_equal (@rev N)) in Et. rewrite rev_involutive in Et.
      cbn [rev] in Et. subst t. apply MAltR.
      change (a :: rev m ++ [z]) with ((a :: rev m) ++ [z]) in *.
      rewrite lastUnit_snoc in Hlast. cbn [holdsOf] in Hlast.
      rewrite forallb_app in Hall. cbn [app forallb] in Hall.
      apply andb_true_iff in Hall as [Hall _].
      apply andb_true_iff in Hall as [_ Hall].
      rewrite length_app in Hhi. cbn [app length] in Hhi.
      constructor; [|now constructor].
      apply Matches_UpTo_class. split; [lia | exact Hall].
Qed.

Lemma dotted_labels (parts : list jsstring) :
  Forall (Matches (Cat (Class (N.eqb (chr "."))) domainLabel)) parts ->
  exists others,
    parts = map (cons (chr ".")) others /\ forallb isLabel others = true.
Proof.
  induction 1 as [|p parts Hp _ IH]; [now exists []|].
  destruct IH as (others & -> & Hall).
  apply Matches_Cat in Hp as (d & l & -> & Hd & Hl).
  apply Matches_Class in Hd as (c & -> & Hc). apply N.eqb_eq in Hc. subst c.
  apply test_spec in Hl. rewrite domainLabel_isLabel in Hl.
  exists (l :: others). cbn [map forallb]. now rewrite Hl, Hall.
Qed.

Lemma isValidEmail_shape (email : jsstring) :
  isValidEmail email = true <->
  exists local first others,
    email = local ++ chr "@" :: joinLabels first others
    /\ local <> [] /\ forallb isLocalChar local = true
    /\ isLabel first = true /\ forallb isLabel others = true
    /\ length email <= 254.
Proof.
  unfold isValidEmail, emailRegex.
  rewrite andb_true_iff, Nat.leb_le, test_spec, Matches_Cat. split.
  - intros [(local & rest & -> & Hlocal & Hrest) Hlen].
    apply test_spec in Hlocal. rewrite test_Plus_class in Hlocal.
    apply andb_true_iff in Hlocal as [Hne Hlocal].
    apply Matches_Cat in Hrest as (at_ & dom & -> & Hat & Hdom).
    apply Matches_Class in Hat as (c & -> & Hc). apply N.eqb_eq in Hc. subst c.
    apply Matches_Cat in Hdom as (first & tail & -> & Hfirst & Htail).
    apply test_spec in Hfirst. rewrite domainLabel_isLabel in Hfirst.
    apply Matches_Star_parts in Htail as (parts & -> & Hparts).
    destruct (dotted_labels parts Hparts) as (others & -> & Hothers).
    exists local, first, others. rewrite joinLabels_concat.
    repeat split; try assumption.
    intros ->. discriminate.
  - intros (local & first & others & -> & Hne & Hlocal & Hfirst & Hothers & Hlen).
    split; [|exact Hlen]. exists local, (chr "@" :: joinLabels first others).
    split; [reflexivity|]. split; [now apply Matches_Plus_class|].
    change (chr "@" :: joinLabels first others)
      with ([chr "@"] ++ joinLabels first others).
    constructor; [constructor; apply N.eqb_refl|].
    rewrite joinLabels_concat. constructor.
    + apply test_spec. now rewrite domainLabel_isLabel.
    + apply Matches_Star_parts. exists (map (cons (chr ".")) others).
      split; [reflexivity|]. clear Hlen. induction others as [|l ls IH]; [constructor|].
      cbn [forallb] in Hothers. apply andb_true_iff in Hothers as [Hl Hls].
      cbn [map]. constructor; [|now apply IH].
      change (chr "." :: l) with ([chr "."] ++ l).
      constructor; [constructor; apply N.eqb_refl|].
      apply test_spec. now rewrite domainLabel_isLabel.
Qed.

(** X8: [isValidEmail] accepts exactly the strings of at most 254 code units
    made of a non-empty local part of permitted characters, one @, and one or
    more labels joined by single dots, each label of 1 to 63 letters, digits
    and hyphens with no hyphen at either end. *)
Theorem isValidEmail_accepts_iff (email : jsstring) :
  isValidEmail email = true <->
  exists local first others,
    email = local ++ chr "@" :: joinLabels first others
    /\ local <> [] /\ forallb isLocalChar local = true
    /\ isLabel first = true /\ forallb isLabel others = true
    /\ length email <= 254.
Proof. apply isValidEmail_shape. Qed.

Lemma isLocalChar_plain (c : N) :
  isLocalChar c = true -> (c < 128)%N /\ c <> chr "@".
Proof.
  unfold isLocalChar, oneOf. cbn [bytes existsb].
  rewrite !orb_true_iff, !N.eqb_eq. change (chr "@") with 64%N. intros H.
  repeat match goal with H : _ \/ _ |- _ => destruct H as [H|H] end;
    try discriminate;
    try (apply isAlnum_range in H; lia);
    subst c; (split; [reflexivity | discriminate]).
Qed.

Lemma isAlnumDash_isLocalChar (c : N) : isAlnumDash c = true -> isLocalChar c = true.
Proof.
  unfold isAlnumDash, isLocalChar. intros H. apply orb_true_iff in H as [->|H];
    [reflexivity|]. apply N.eqb_eq in H. subst c. reflexivity.
Qed.

Lemma localChars_plain (s : jsstring) :
  forallb isLocalChar s = true ->
  isAscii s = true /\ count_occ N.eq_dec s (chr "@") = 0.
Proof.
  induction s as [|c s IH]; [now split|]. cbn [forallb]. intros H.
  apply andb_true_iff in H as [Hc Hs]. destruct (IH Hs) as [IH1 IH2].
  destruct (isLocalChar_plain c Hc) as [Hlt Hne]. split.
  - cbn [isAscii forallb]. apply andb_true_iff. split; [now apply N.ltb_lt | exact IH1].
  - rewrite count_occ_cons_neq by exact Hne. exact IH2.
Qed.

Lemma joinLabels_localChars (first : jsstring) (others : list jsstring) :
  isLabel first = true -> forallb isLabel others = true ->
  forallb isLocalChar (joinLabels first others) = true.
Proof.
  assert (Hlabel : forall l, isLabel l = true -> forallb isLocalChar l = true).
  { intros l Hl. unfold isLabel in Hl. rewrite !andb_true_iff in Hl.
    destruct Hl as [[[_ Hall] _] _]. apply forallb_forall. intros c Hc.
    apply isAlnumDash_isLocalChar. now apply (proj1 (forallb_forall _ _) Hall). }
  revert first. induction others as [|l ls IH]; intros first Hfirst Hothers;
    cbn [joinLabels]; [now apply Hlabel|].
  cbn [forallb] in Hothers. apply andb_true_iff in Hothers as [Hl Hls].
  rewrite forallb_app. cbn [forallb]. rewrite (Hlabel first Hfirst), (IH l Hl Hls).
  reflexivity.
Qed.

(** X9: an address accepted by [isValidEmail] is plain ASCII and holds exactly
    one @: no blank, control character or character outside ASCII gets
    through. *)
Theorem isValidEmail_accepted_is_ascii (email : jsstring) :
  isValidEmail email = true ->
  isAscii email = true /\ count_occ N.eq_dec email (chr "@") = 1.
Proof.
  intros H. apply isValidEmail_shape in H
    as (local & first & others & -> & _ & Hlocal & Hfirst & Hothers & _).
  destruct (localChars_plain local Hlocal) as [Ha1 Hc1].
  destruct (localChars_plain _ (joinLabels_localChars first others Hfirst Hothers))
    as [Ha2 Hc2].
  split.
  - unfold isAscii in *. rewrite forallb_app. cbn [forallb]. now rewrite Ha1, Ha2.
  - rewrite count_occ_app, Hc1, count_occ_cons_eq by reflexivity. now rewrite Hc2.
Qed.

Lemma isValidEmail_accepted_is_ascii_witness :
  isValidEmail (lit "user@example.com") = true
  /\ isAscii (lit "user@example.com") = true
  /\ count_occ N.eq_dec (lit "user@example.com") (chr "@") = 1.
Proof.
  assert (H : isValidEmail (lit "user@example.com") = true) by (vm_compute; reflexivity).
  split; [exact H|]. exact (isValidEmail_accepted_is_ascii _ H).
Defined.

(** ** Sanitizer, continued *)

(** X10: the five successive replacements of [sanitizeHtml] act as one
    simultaneous substitution: each code unit of the input is replaced by its
    own escape, and nothing the earlier replacements produced is escaped
    again by the later ones. *)
Theorem sanitizeHtml_one_pass (s : jsstring) :
  sanitizeHtml s = flat_map escapeChar s.
Proof.
  induction s as [|c s IH]; [reflexivity|].
  rewrite sanitizeHtml_cons, IH. reflexivity.
Qed.

Lemma escapeChar_head (c : N) :
  exists x rest, escapeChar c = x :: rest
    /\ (isSpecial c = false -> x = c /\ rest = [])
    /\ (isSpecial c = true -> x = AMP).
Proof.
  destruct (isSpecial c) eqn:Hc.
  - unfold isSpecial in Hc.
    repeat (apply orb_true_iff in Hc as [Hc|Hc]);
      apply N.eqb_eq in Hc; subst c;
      (eexists; eexists; split; [reflexivity|]; split; [discriminate|reflexivity]).
  - rewrite (escapeChar_other c Hc). exists c, []. split; [reflexivity|].
    split; [now split | discriminate].
Qed.

Lemma isSpecial_AMP : isSpecial AMP = true.
Proof. reflexivity. Qed.

(** Two escapes followed by anything agree only when they escape the same
    code unit and are followed by the same text. *)
Lemma escapeChar_prefix_free (c d : N) (u v : jsstring) :
  escapeChar c ++ u = escapeChar d ++ v -> c = d /\ u = v.
Proof.
  destruct (isSpecial c) eqn:Hc, (isSpecial d) eqn:Hd.
  - unfold isSpecial in Hc, Hd.
    repeat (apply orb_true_iff in Hc as [Hc|Hc]);
      apply N.eqb_eq in Hc; subst c;
      repeat (apply orb_true_iff in Hd as [Hd|Hd]);
      apply N.eqb_eq in Hd; subst d;
      simpl; intros H; try discriminate H; (split; [reflexivity | congruence]).
  - rewrite (escapeChar_other d Hd).
    destruct (escapeChar_head c) as (x & rest & -> & _ & Hx).
    cbn [app]. intros H. injection H as E _. pose proof (Hx Hc) as Ex.
    assert (Ed : d = AMP) by congruence. rewrite Ed in Hd.
    now rewrite isSpecial_AMP in Hd.
  - rewrite (escapeChar_other c Hc).
    destruct (escapeChar_head d) as (x & rest & -> & _ & Hx).
    cbn [app]. intros H. injection H as E _. pose proof (Hx Hd) as Ex.
    assert (Ec : c = AMP) by congruence. rewrite Ec in Hc.
    now rewrite isSpecial_AMP in Hc.
  - rewrite (escapeChar_other c Hc), (escapeChar_other d Hd). cbn [app].
    intros H. now injection H.
Qed.

(** X11: [sanitizeHtml] loses nothing: two different inputs never have the same
    escaped form. *)
Theorem sanitizeHtml_injective (s t : jsstring) :
  sanitizeHtml s = sanitizeHtml t -> s = t.
Proof.
  revert t. induction s as [|c s IH]; intros [|d t].
  - reflexivity.
  - rewrite sanitizeHtml_cons. destruct (escapeChar_head d) as (x & rest & -> & _).
    discriminate.
  - rewrite sanitizeHtml_cons. destruct (escapeChar_head c) as (x & rest & -> & _).
    discriminate.
  - rewrite !sanitizeHtml_cons. intros H.
    apply escapeChar_prefix_free in H as [-> H]. now rewrite (IH t H).
Qed.

Lemma sanitizeHtml_injective_witness :
  sanitizeHtml (lit "a&b") = sanitizeHtml (lit "a&b") /\ lit "a&b" = lit "a&b".
Proof.
  split; [reflexivity|].
  exact (sanitizeHtml_injective (lit "a&b") (lit "a&b") eq_refl).
Defined.

Lemma escapeChar_length_max (c : N) : length (escapeChar c) <= 6.
Proof.
  destruct (isSpecial c) eqn:Hc.
  - unfold isSpecial in Hc.
    repeat (apply orb_true_iff in Hc as [Hc|Hc]);
      apply N.eqb_eq in Hc; subst c; simpl; lia.
  - rewrite (escapeChar_other c Hc). simpl. lia.
Qed.

(** X12: escaping never shortens a string and lengthens it at most six times:
    the output has between [length s] and [6 * length s] code units, and
    escaping a concatenation is concatenating the escapes. *)
Theorem sanitizeHtml_length_bounds (s t : jsstring) :
  length s <= length (sanitizeHtml s) <= 6 * length s
  /\ sanitizeHtml (s ++ t) = sanitizeHtml s ++ sanitizeHtml t.
Proof.
  split; [|apply sanitizeHtml_app]. split; [apply sanitizeHtml_length|].
  induction s as [|c s IH]; [cbn; lia|].
  rewrite sanitizeHtml_cons, length_app. pose proof (escapeChar_length_max c).
  cbn [length]. lia.
Qed.

(** ** Rate limiter, continued *)

Section RateLimitMore.

Implicit Types (store : gmap jsstring RateLimitData) (key : jsstring).

(** Inside a window, calls pass until the count reaches the limit and are
    refused from then on. *)
Lemma checkAll_in_window nows key maxAttempts windowMs : forall store data,
  store !! key = Some data ->
  Forall (fun now => (now <= resetTime data)%Z) nows ->
  checkAll nows key maxAttempts windowMs store
  = (repeat true (min (length nows) (Z.to_nat (maxAttempts - count data)))
       ++ repeat false (length nows - Z.to_nat (maxAttempts - count data)),
     <[key := {| count := count data
                          + Z.of_nat (min (length nows)
                                        (Z.to_nat (maxAttempts - count data)));
                 resetTime := resetTime data |}]> store).
Proof.
  induction nows as [|now nows IH]; intros store data Hk Hin.
  - cbn [checkAll length repeat app Nat.min Z.of_nat]. f_equal. symmetry.
    apply insert_id. rewrite Hk. destruct data as [c r]. cbn [count resetTime].
    now rewrite Z.add_0_r.
  - apply Forall_cons in Hin as [Hnow Hin]. rewrite checkAll_cons.
    destruct (Z.lt_ge_cases (count data) maxAttempts) as [Hlt|Hge].
    + rewrite (checkRateLimit_counts _ _ _ _ _ data Hk Hnow Hlt). cbn [fst snd].
      rewrite (IH _ {| count := count data + 1; resetTime := resetTime data |});
        [| apply lookup_insert_eq | exact Hin].
      cbn [count resetTime fst snd length]. rewrite insert_insert_eq.
      replace (Z.to_nat (maxAttempts - (count data + 1)))
        with (Z.to_nat (maxAttempts - count data) - 1) by lia.
      destruct (Z.to_nat (maxAttempts - count data)) as [|k] eqn:Ek; [lia|].
      replace (S k - 1) with k by lia. cbn [Nat.min Nat.sub repeat app].
      replace (count data + Z.of_nat (S (Nat.min (length nows) k)))%Z
        with (count data + 1 + Z.of_nat (Nat.min (length nows) k))%Z by lia.
      reflexivity.
    + rewrite (checkRateLimit_refuses _ _ _ _ _ data Hk Hnow Hge). cbn [fst snd].
      rewrite (IH store data Hk Hin). cbn [fst snd length].
      replace (Z.to_nat (maxAttempts - count data)) with 0 by lia.
      rewrite Nat.min_0_r, Nat.sub_0_r. cbn [Nat.min Nat.sub repeat app].
      reflexivity.
Qed.

End RateLimitMore.

(** X13: for any limit, a window lets through its opening call and then calls
    up to the limit: of the calls of one window, the first
    [max 1 maxAttempts] pass and all later ones are refused.  A limit of zero
    or below therefore still admits one call per window. *)
Theorem checkAll_allows_limit_per_window
    (store : gmap jsstring RateLimitData) (key : jsstring)
    (maxAttempts windowMs t1 : Z) (nows : list Z) :
  startsWindow t1 key store = true ->
  Forall (fun now => (now <= t1 + windowMs)%Z) nows ->
  fst (checkAll (t1 :: nows) key maxAttempts windowMs store)
  = repeat true (min (S (length nows)) (allowedPerWindow maxAttempts))
    ++ repeat false (S (length nows) - allowedPerWindow maxAttempts).
Proof.
  intros Hopen Hin. rewrite checkAll_cons, (checkRateLimit_opens _ _ _ _ _ Hopen).
  cbn [fst snd].
  rewrite (checkAll_in_window nows key maxAttempts windowMs _
             {| count := 1; resetTime := t1 + windowMs |});
    [| apply lookup_insert_eq | exact Hin].
  cbn [fst count]. unfold allowedPerWindow.
  replace (Z.to_nat (Z.max 1 maxAttempts)) with (S (Z.to_nat (maxAttempts - 1))) by lia.
  reflexivity.
Qed.

Lemma checkAll_allows_limit_per_window_witness :
  startsWindow 0 (lit "ip") ∅ = true
  /\ Forall (fun now => (now <= 0 + 1000)%Z) [10; 20; 30]%Z
  /\ fst (checkAll [0; 10; 20; 30]%Z (lit "ip") 2 1000 ∅) = [true; true; false; false].
Proof.
  assert (H1 : startsWindow 0 (lit "ip") ∅ = true) by reflexivity.
  assert (H2 : Forall (fun now => (now <= 0 + 1000)%Z) [10; 20; 30]%Z)
    by (repeat constructor; lia).
  split; [exact H1|]. split; [exact H2|].
  exact (checkAll_allows_limit_per_window ∅ (lit "ip") 2 1000 0 [10; 20; 30]%Z H1 H2).
Defined.




(** A call writes at most the entry of its own identifier. *)
Lemma checkRateLimit_writes_own_entry
    (store : gmap jsstring RateLimitData) (key : jsstring)
    (now maxAttempts windowMs : Z) :
  exists x, snd (checkRateLimit now key maxAttempts windowMs store) = <[key := x]> store.
Proof.
  unfold checkRateLimit. destruct (store !! key) as [d|] eqn:Hk; [|now eexists].
  destruct (now >? resetTime d)%Z; [now eexists|].
  destruct (count d >=? maxAttempts)%Z; [|now eexists].
  exists d. cbn [snd]. symmetry. now apply insert_id.
Qed.

(** An entry written for another identifier changes neither the answer of a
    call nor what the call writes. *)
Lemma checkRateLimit_frame
    (store : gmap jsstring RateLimitData) (key key' : jsstring) (x : RateLimitData)
    (now maxAttempts windowMs : Z) :
  key <> key' ->
  checkRateLimit now key' maxAttempts windowMs (<[key := x]> store)
  = (fst (checkRateLimit now key' maxAttempts windowMs store),
     <[key := x]> (snd (checkRateLimit now key' maxAttempts windowMs store))).
Proof.
  intros Hne. unfold checkRateLimit. rewrite lookup_insert_ne by exact Hne.
  destruct (store !! key') as [d|].
  - destruct (now >? resetTime d)%Z; cbn [fst snd];
      [f_equal; apply insert_insert_ne; congruence|].
    destruct (count d >=? maxAttempts)%Z; cbn [fst snd]; [reflexivity|].
    f_equal. apply insert_insert_ne. congruence.
  - cbn [fst snd]. f_equal. apply insert_insert_ne. congruence.
Qed.

(** X15: calls for different identifiers do not interfere and may be reordered:
    each gets the answer it would get alone, and the store that results is
    the same in either order. *)
Theorem checkRateLimit_distinct_keys_commute
    (store : gmap jsstring RateLimitData) (key key' : jsstring)
    (now now' maxAttempts maxAttempts' windowMs windowMs' : Z) :
  key <> key' ->
  let a := checkRateLimit now key maxAttempts windowMs store in
  let b := checkRateLimit now' key' maxAttempts' windowMs' store in
  fst (checkRateLimit now' key' maxAttempts' windowMs' (snd a)) = fst b
  /\ fst (checkRateLimit now key maxAttempts windowMs (snd b)) = fst a
  /\ snd (checkRateLimit now' key' maxAttempts' windowMs' (snd a))
     = snd (checkRateLimit now key maxAttempts windowMs (snd b)).
Proof.
  intros Hne a b. subst a b.
  destruct (checkRateLimit_writes_own_entry store key now maxAttempts windowMs)
    as [x Hx].
  destruct (checkRateLimit_writes_own_entry store key' now' maxAttempts' windowMs')
    as [y Hy].
  rewrite Hx, Hy. rewrite (checkRateLimit_frame store key key' x) by exact Hne.
  rewrite (checkRateLimit_frame store key' key y) by congruence.
  cbn [fst snd]. rewrite Hx, Hy. repeat split. apply insert_insert_ne. congruence.
Qed.

Lemma checkRateLimit_distinct_keys_commute_witness :
  lit "alice" <> lit "bob"
  /\ fst (checkRateLimit 7 (lit "bob") 5 1000
            (snd (checkRateLimit 3 (lit "alice") 1 1000 ∅)))
     = fst (checkRateLimit 7 (lit "bob") 5 1000 ∅).
Proof.
  assert (H : lit "alice" <> lit "bob") by discriminate.
  split; [exact H|].
  exact (proj1 (checkRateLimit_distinct_keys_commute ∅ (lit "alice") (lit "bob")
                  3 7 1 5 1000 1000 H)).
Defined.

Lemma cleanupRateLimit_lookup (now : Z) (store : gmap jsstring RateLimitData)
    (key : jsstring) :
  cleanupRateLimit now store !! key
  = match store !! key with
    | Some data => if (now >? resetTime data)%Z then None else Some data
    | None => None
    end.
Proof.
  unfold cleanupRateLimit. destruct (store !! key) as [data|] eqn:Hk.
  - destruct (Z.gtb_spec now (resetTime data)).
    + apply map_lookup_filter_None. right. intros x Hx. cbn.
      rewrite Hk in Hx. injection Hx as <-. lia.
    + apply map_lookup_filter_Some. split; [exact Hk | cbn; lia].
  - apply map_lookup_filter_None. now left.
Qed.

(** X16: the sweep cannot be noticed through the limiter: it removes exactly
    the entries whose window is over and leaves the others as they are, and a
    call made at or after the time of the sweep gets the same answer and
    leaves the same entry for its identifier as it would without the sweep. *)
Theorem cleanupRateLimit_transparent
    (store : gmap jsstring RateLimitData) (key : jsstring)
    (swept now maxAttempts windowMs : Z) :
  (swept <= now)%Z ->
  (forall k data,
      cleanupRateLimit swept store !! k = Some data <->
      store !! k = Some data /\ (swept <= resetTime data)%Z)
  /\ fst (checkRateLimit now key maxAttempts windowMs (cleanupRateLimit swept store))
     = fst (checkRateLimit now key maxAttempts windowMs store)
  /\ snd (checkRateLimit now key maxAttempts windowMs (cleanupRateLimit swept store))
       !! key
     = snd (checkRateLimit now key maxAttempts windowMs store) !! key.
Proof.
  intros Hle. split.
  - intros k data. rewrite cleanupRateLimit_lookup.
    destruct (store !! k) as [d|]; [|intuition discriminate].
    destruct (Z.gtb_spec swept (resetTime d)); split.
    + discriminate.
    + intros [E Hlive]. injection E as ->. lia.
    + intros E. injection E as ->. split; [reflexivity | lia].
    + now intros [E _].
  - unfold checkRateLimit. rewrite cleanupRateLimit_lookup.
    destruct (store !! key) as [d|] eqn:Hk.
    + destruct (Z.gtb_spec swept (resetTime d)).
      * destruct (Z.gtb_spec now (resetTime d)); [|lia].
        cbn [fst snd]. now rewrite !lookup_insert_eq.
      * destruct (now >? resetTime d)%Z; cbn [fst snd];
          [now rewrite !lookup_insert_eq|].
        destruct (count d >=? maxAttempts)%Z; cbn [fst snd];
          [|now rewrite !lookup_insert_eq].
        split; [reflexivity|]. rewrite cleanupRateLimit_lookup, Hk.
        destruct (Z.gtb_spec swept (resetTime d)); [lia | reflexivity].
    + cbn [fst snd]. now rewrite !lookup_insert_eq.
Qed.

Lemma cleanupRateLimit_transparent_witness :
  (10 <= 12)%Z
  /\ fst (checkRateLimit 12 (lit "ip") 5 100
            (cleanupRateLimit 10 (<[lit "ip" := {| count := 5; resetTime := 9 |}]> ∅)))
     = fst (checkRateLimit 12 (lit "ip") 5 100
              (<[lit "ip" := {| count := 5; resetTime := 9 |}]> ∅)).
Proof.
  assert (H : (10 <= 12)%Z) by lia.
  split; [exact H|].
  exact (proj1 (proj2 (cleanupRateLimit_transparent
                         (<[lit "ip" := {| count := 5; resetTime := 9 |}]> ∅)
                         (lit "ip") 10 12 5 100 H))).
Defined.

(** X17: counts stay within bounds: when every stored count lies between 1 and
    the limit, it still does after a call with that limit and after a sweep,
    so no entry ever records more passes than the limit allows. *)
Theorem checkRateLimit_keeps_counts_bounded
    (store : gmap jsstring RateLimitData) (key : jsstring)
    (now maxAttempts windowMs : Z) :
  (1 <= maxAttempts)%Z ->
  boundedCounts maxAttempts store ->
  boundedCounts maxAttempts (snd (checkRateLimit now key maxAttempts windowMs store))
  /\ boundedCounts maxAttempts (cleanupRateLimit now store).
Proof.
  intros Hmax Hb. unfold boundedCounts in *. split.
  - unfold checkRateLimit. destruct (store !! key) as [d|] eqn:Hk.
    + destruct (now >? resetTime d)%Z; cbn [snd].
      * apply map_Forall_insert_2; [cbn [count]; lia | exact Hb].
      * destruct (Z.geb_spec (count d) maxAttempts); cbn [snd]; [exact Hb|].
        apply map_Forall_insert_2; [|exact Hb].
        pose proof (Hb key d Hk) as Hd. cbn in Hd. cbn [count]. lia.
    + cbn [snd]. apply map_Forall_insert_2; [cbn [count]; lia | exact Hb].
  - intros k d Hk. rewrite cleanupRateLimit_lookup in Hk.
    destruct (store !! k) as [d'|] eqn:Hk'; [|discriminate].
    destruct (now >? resetTime d')%Z; [discriminate|]. injection Hk as <-.
    exact (Hb k d' Hk').
Qed.

Lemma checkRateLimit_keeps_counts_bounded_witness :
  (1 <= 5)%Z
  /\ boundedCounts 5 (∅ : gmap jsstring RateLimitData)
  /\ boundedCounts 5 (snd (checkRateLimit 0 (lit "ip") 5 1000 ∅)).
Proof.
  assert (H1 : (1 <= 5)%Z) by lia.
  assert (H2 : boundedCounts 5 (∅ : gmap jsstring RateLimitData))
    by apply map_Forall_empty.
  split; [exact H1|]. split; [exact H2|].
  exact (proj1 (checkRateLimit_keeps_counts_bounded ∅ (lit "ip") 0 5 1000 H1 H2)).
Defined.

(** ** Error mapper, continued *)

Ltac split_ifs :=
  repeat match goal with
         | |- context [if ?c then _ else _] => destruct c eqn:?
         end.

(** X18: whatever it is given, [mapErrorMessage] answers with one of its own
    24 fixed texts: no part of the argument reaches the answer. *)
Theorem mapErrorMessage_fixed_texts (error : ErrorArg) :
  In (fst (mapErrorMessage error)) userMessages.
Proof.
  unfold mapErrorMessage.
  destruct (messageOf error) as [[|c m]|]; split_ifs; cbn [fst];
    apply arrayIncludes_In; vm_compute; reflexivity.
Qed.

(** X19: a warning is written exactly when the fallback is returned, and then
    it is the raw message that is written: every other answer leaves the log
    untouched. *)
Theorem mapErrorMessage_logs_iff_fallback (error : ErrorArg) :
  (snd (mapErrorMessage error) = [] /\ fst (mapErrorMessage error) <> MSG_FALLBACK)
  \/ (exists message,
         messageOf error = Some message
         /\ mapErrorMessage error
            = (MSG_FALLBACK, [lit "Unmapped error message:"; message])).
Proof.
  unfold mapErrorMessage.
  destruct (messageOf error) as [[|c m]|]; split_ifs; cbn [fst snd];
    first [ left; split; [exact eq_refl | vm_compute; discriminate]
          | right; exists (c :: m); split; exact eq_refl ].
Qed.

(** No message of the exact table holds a keyword, so the keyword tests are
    never pre-empted by, and never hide, a table entry. *)
Lemma exactTable_without_keyword (message : jsstring) :
  arrayIncludes exactTable message = true ->
  existsb (includes message) keywords = false.
Proof.
  intros H. apply arrayIncludes_In in H. unfold exactTable in H. cbn [In] in H.
  repeat (destruct H as [<-|H]; [vm_compute; reflexivity|]). contradiction.
Qed.

(** A message that holds a keyword is none of the entries tested before
    the keywords. *)
Lemma keyword_not_in_table (message : jsstring) :
  existsb (includes message) keywords = true ->
  arrayIncludes exactTable message = false.
Proof.
  intros H. destruct (arrayIncludes exactTable message) eqn:E; [|reflexivity].
  apply exactTable_without_keyword in E. congruence.
Qed.

(** X20: the keyword tests take precedence in the order rate limit, network,
    server: a message that holds rate limit or too many requests anywhere
    gets the rate-limit text; otherwise one that holds network or fetch gets
    the connection text; otherwise one that holds server or 500 gets the
    server text. *)
Theorem mapErrorMessage_keywords (error : ErrorArg) (message : jsstring) :
  messageOf error = Some message ->
  let rate := includes message (lit "rate limit")
              || includes message (lit "too many requests") in
  let network := includes message (lit "network") || includes message (lit "fetch") in
  let server := includes message (lit "server") || includes message (lit "500") in
  (rate = true -> fst (mapErrorMessage error) = MSG_RATE_LIMIT)
  /\ (rate = false -> network = true -> fst (mapErrorMessage error) = MSG_NETWORK)
  /\ (rate = false -> network = false -> server = true ->
      fst (mapErrorMessage error) = MSG_SERVER).
Proof.
  intros Hm. cbv zeta.
  assert (Hgo : forall r n sv : bool,
             includes message (lit "rate limit")
             || includes message (lit "too many requests") = r ->
             includes message (lit "network") || includes message (lit "fetch") = n ->
             includes message (lit "server") || includes message (lit "500") = sv ->
             r || n || sv = true ->
             fst (mapErrorMessage error)
             = if r then MSG_RATE_LIMIT else if n then MSG_NETWORK else MSG_SERVER).
  { intros r n sv Hr Hn Hsv Hany.
    assert (Htable : arrayIncludes exactTable message = false).
    { apply keyword_not_in_table. unfold keywords. cbn [existsb].
      rewrite orb_false_r, !orb_assoc, Hr, <- (orb_assoc r), Hn, <- (orb_assoc (r || n)), Hsv.
      exact Hany. }
    unfold mapErrorMessage. rewrite Hm.
    destruct message as [|c m].
    { vm_compute in Hr, Hn, Hsv. subst r n sv. discriminate Hany. }
    unfold arrayIncludes, exactTable in Htable. cbn [existsb] in Htable.
    repeat (apply orb_false_iff in Htable as [? Htable]).
    repeat match goal with
           | E : streq _ _ = false |- _ => rewrite E; clear E
           end.
    rewrite Hr, Hn, Hsv. cbn [orb].
    destruct r; [cbn [fst]; vm_compute; reflexivity|].
    destruct n; [cbn [fst]; vm_compute; reflexivity|].
    cbn [orb] in Hany. rewrite Hany. cbn [fst]. vm_compute. reflexivity. }
  split; [|split].
  - intros H. exact (Hgo true _ _ H eq_refl eq_refl eq_refl).
  - intros H0 H. exact (Hgo false true _ H0 H eq_refl eq_refl).
  - intros H0 H1 H. exact (Hgo false false true H0 H1 H eq_refl).
Qed.

Lemma mapErrorMessage_keywords_witness :
  messageOf (ErrString (lit "API rate limit exceeded"))
  = Some (lit "API rate limit exceeded")
  /\ fst (mapErrorMessage (ErrString (lit "API rate limit exceeded"))) = MSG_RATE_LIMIT.
Proof.
  assert (H1 : messageOf (ErrString (lit "API rate limit exceeded"))
               = Some (lit "API rate limit exceeded")) by exact eq_refl.
  assert (H2 : includes (lit "API rate limit exceeded") (lit "rate limit")
               || includes (lit "API rate limit exceeded") (lit "too many requests")
               = true) by (vm_compute; reflexivity).
  split; [exact H1|].
  exact (proj1 (mapErrorMessage_keywords (ErrString (lit "API rate limit exceeded"))
                  (lit "API rate limit exceeded") H1) H2).
Defined.

(** ** Request gate, continued *)

Lemma admin_path_is_private (pathname : jsstring) :
  somePrefix ADMIN_PATHS pathname = true -> somePrefix PRIVATE_PATHS pathname = true.
Proof.
  unfold somePrefix at 1, ADMIN_PATHS. cbn [existsb]. intros H.
  repeat (apply orb_true_iff in H as [H|H]); try discriminate;
    apply startsWith_app in H as [rest ->]; vm_compute; reflexivity.
Qed.

Lemma route_table (pathname : jsstring) (locals : Locals)
    (next : Locals -> outcome Response) :
  route pathname locals next
  = match user locals with
    | None =>
      if somePrefix PRIVATE_PATHS pathname then redirectToSignIn pathname
      else next locals
    | Some u =>
      if arrayIncludes AUTH_PATHS pathname
      then Returns (newResponse 302 (lit "Location") (lit "/dashboard"))
      else if somePrefix ADMIN_PATHS pathname && notAdmin u
      then Returns (newResponse 403 (lit "Content-Type") (lit "text/html"))
      else next locals
    end.
Proof.
  unfold route. destruct (user locals) as [u|].
  - rewrite bool_decide_eq_true_2 by eauto.
    rewrite bool_decide_eq_false_2 by discriminate.
    rewrite andb_true_r, andb_false_r.
    destruct (arrayIncludes AUTH_PATHS pathname); [reflexivity|].
    destruct (somePrefix ADMIN_PATHS pathname); [|reflexivity].
    cbn [andb]. now destruct (notAdmin u).
  - rewrite bool_decide_eq_false_2 by (intros [x Hx]; discriminate).
    rewrite bool_decide_eq_true_2 by reflexivity.
    rewrite andb_false_r, andb_true_r.
    destruct (somePrefix ADMIN_PATHS pathname) eqn:Ha; [|reflexivity].
    now rewrite (admin_path_is_private pathname Ha).
Qed.

(** X21: the branches of the gate amount to this table.  Without user: a path
    under a private prefix (the admin prefixes are among them) is redirected
    to the sign-in page, any other path is handed on.  With a user: an auth
    page is redirected to the landing page, an admin path of a user who is not
    administrator is refused with 403, and everything else is handed on. *)
Theorem route_decision_table (pathname : jsstring) (locals : Locals)
    (next : Locals -> outcome Response) :
  route pathname locals next
  = match user locals with
    | None =>
      if somePrefix PRIVATE_PATHS pathname then redirectToSignIn pathname
      else next locals
    | Some u =>
      if arrayIncludes AUTH_PATHS pathname
      then Returns (newResponse 302 (lit "Location") (lit "/dashboard"))
      else if somePrefix ADMIN_PATHS pathname && notAdmin u
      then Returns (newResponse 403 (lit "Content-Type") (lit "text/html"))
      else next locals
    end.
Proof. apply route_table. Qed.

(** X22: an anonymous request for a path under a private prefix is answered
    with a 302 to the sign-in page that carries the encoded path, has no body
    and bears the security headers; the chain is not consulted. *)
Theorem onRequest_private_anonymous nodeEnv (pathname : jsstring)
    (next : Locals -> outcome Response) :
  somePrefix PRIVATE_PATHS pathname = true -> isAscii pathname = true ->
  exists q,
    encodeURIComponent pathname = Returns q
    /\ onRequest nodeEnv (Returns None) pathname next
       = {| response :=
              addSecurityHeaders nodeEnv
                (newResponse 302 (lit "Location") (lit "/connexion?redirect=" ++ q));
            consoleError := [] |}
    /\ status (response (onRequest nodeEnv (Returns None) pathname next)) = 302%Z
    /\ body (response (onRequest nodeEnv (Returns None) pathname next)) = None
    /\ headersGet (lit "Location")
         (headers (response (onRequest nodeEnv (Returns None) pathname next)))
       = Some (lit "/connexion?redirect=" ++ q)
    /\ hasSecurityHeaders (response (onRequest nodeEnv (Returns None) pathname next)).
Proof.
  intros Hprivate Hascii.
  destruct (encodeURIComponent_ascii pathname Hascii) as (q & Hq & _).
  exists q. split; [exact Hq|].
  destruct (onRequest_headers_without_fault nodeEnv None pathname next
              (newResponse 302 (lit "Location") (lit "/connexion?redirect=" ++ q)))
    as [Heq Hheaders].
  { rewrite route_table. cbn [fmap option_fmap option_map user].
    rewrite Hprivate. unfold redirectToSignIn. now rewrite Hq. }
  { exact eq_refl. }
  split; [exact Heq|]. rewrite Heq in *. cbn [response] in *.
  destruct (addSecurityHeaders_status nodeEnv
              (newResponse 302 (lit "Location") (lit "/connexion?redirect=" ++ q)))
    as [-> ->].
  rewrite addSecurityHeaders_location.
  split; [reflexivity|]. split; [reflexivity|].
  split; [apply headersGet_set_eq | exact Hheaders].
Qed.

Lemma onRequest_private_anonymous_witness :
  somePrefix PRIVATE_PATHS (lit "/dashboard/stats") = true
  /\ isAscii (lit "/dashboard/stats") = true
  /\ exists q,
       encodeURIComponent (lit "/dashboard/stats") = Returns q
       /\ status (response (onRequest None (Returns None) (lit "/dashboard/stats")
                              servePage)) = 302%Z.
Proof.
  assert (H1 : somePrefix PRIVATE_PATHS (lit "/dashboard/stats") = true) by reflexivity.
  assert (H2 : isAscii (lit "/dashboard/stats") = true) by reflexivity.
  split; [exact H1|]. split; [exact H2|].
  destruct (onRequest_private_anonymous None (lit "/dashboard/stats") servePage H1 H2)
    as (q & Hq & _ & Hstatus & _).
  exists q. split; [exact Hq | exact Hstatus].
Defined.

(** X23: the gate answers either with the bare fault response or with a
    response that bears the security headers: apart from the fault branch no
    path through the gate leaves them out. *)
Theorem onRequest_headers_or_fault nodeEnv
    (getSession : outcome (option (User * Session)))
    (pathname : jsstring) (next : Locals -> outcome Response) :
  (response (onRequest nodeEnv getSession pathname next) = faultResponse
   /\ consoleError (onRequest nodeEnv getSession pathname next) <> [])
  \/ (hasSecurityHeaders (response (onRequest nodeEnv getSession pathname next))
      /\ consoleError (onRequest nodeEnv getSession pathname next) = []).
Proof.
  unfold onRequest. destruct getSession as [result|e]; cbn [bind].
  - destruct (route pathname _ next) as [r|e]; cbn [bind].
    + rewrite setSecurityHeaders_spec.
      destruct (headersImmutable r); cbn [response consoleError].
      * left. split; [reflexivity | discriminate].
      * right. split; [apply addSecurityHeaders_sets | reflexivity].
    + cbn [response consoleError]. left. split; [reflexivity | discriminate].
  - cbn [response consoleError]. left. split; [reflexivity | discriminate].
Qed.

Ltac pick_member := vm_compute; repeat (first [left; reflexivity | right]).

(** X24: on a response whose headers can be written, the header block of
    the gate touches nothing but its own headers: status, body and every
    header whose name, lower-cased, is not one of the six security header
    names stay as the branch produced them; and the transport security
    header is set to its fixed value exactly when [NODE_ENV] is production,
    and otherwise left as the branch had it.  On a response whose headers
    are immutable the block throws, and returns no response at all. *)
Theorem addSecurityHeaders_keeps_the_rest nodeEnv (r : Response) (name : jsstring) :
  (headersImmutable r = true -> setSecurityHeaders nodeEnv r = Throws TYPE_ERROR)
  /\ (headersImmutable r = false ->
      exists r',
        setSecurityHeaders nodeEnv r = Returns r'
        /\ status r' = status r
        /\ body r' = body r
        /\ (~ In (asciiLower name) SECURITY_HEADER_NAMES ->
            headersGet name (headers r') = headersGet name (headers r))
        /\ headersGet (lit "Strict-Transport-Security") (headers r')
           = (if bool_decide (nodeEnv = Some (lit "production")) then Some HSTS
              else headersGet (lit "Strict-Transport-Security") (headers r))).
Proof.
  rewrite setSecurityHeaders_spec.
  split; [intros ->; reflexivity|]. intros ->.
  exists (addSecurityHeaders nodeEnv r). split; [reflexivity|].
  destruct (addSecurityHeaders_status nodeEnv r) as [Hs Hb].
  split; [exact Hs|]. split; [exact Hb|]. split.
  - intros Hnot.
    assert (Hne : forall n, In (asciiLower n) SECURITY_HEADER_NAMES ->
                            asciiLower n <> asciiLower name).
    { intros n Hn E. apply Hnot. now rewrite <- E. }
    unfold addSecurityHeaders.
    destruct nodeEnv as [env|]; [destruct (streq env (lit "production"))|];
      cbn [withHeader headers];
      repeat (rewrite headersGet_set_ne
                by (apply Hne; unfold SECURITY_HEADER_NAMES; cbn [In]; pick_member));
      reflexivity.
  - unfold addSecurityHeaders. destruct nodeEnv as [env|].
    + destruct (streq env (lit "production")) eqn:E.
      * apply streq_eq in E. subst env.
        rewrite bool_decide_eq_true_2 by reflexivity.
        cbn [withHeader headers]. unfold HSTS. apply headersGet_set_eq.
      * rewrite bool_decide_eq_false_2.
        { cbn [withHeader headers]. repeat other_header. reflexivity. }
        intros H. injection H as ->.
        now rewrite (proj2 (streq_eq _ _) eq_refl) in E.
    + rewrite bool_decide_eq_false_2 by discriminate.
      cbn [withHeader headers]. repeat other_header. reflexivity.
Qed.

Lemma addSecurityHeaders_keeps_the_rest_witness :
  headersImmutable (newResponse 200 (lit "set-cookie") (lit "sid=1")) = false
  /\ ~ In (asciiLower (lit "Set-Cookie")) SECURITY_HEADER_NAMES
  /\ exists r',
       setSecurityHeaders None (newResponse 200 (lit "set-cookie") (lit "sid=1"))
       = Returns r'
       /\ headersGet (lit "Set-Cookie") (headers r') = Some (lit "sid=1").
Proof.
  assert (H0 : headersImmutable (newResponse 200 (lit "set-cookie") (lit "sid=1"))
               = false) by reflexivity.
  assert (H : ~ In (asciiLower (lit "Set-Cookie")) SECURITY_HEADER_NAMES).
  { unfold SECURITY_HEADER_NAMES. cbn [In]. intros H.
    repeat (destruct H as [H|H]; [discriminate H|]). exact H. }
  split; [exact H0|]. split; [exact H|].
  destruct (proj2 (addSecurityHeaders_keeps_the_rest None
                     (newResponse 200 (lit "set-cookie") (lit "sid=1"))
                     (lit "Set-Cookie")) H0)
    as (r' & Hr & _ & _ & Hkeep & _).
  exists r'. split; [exact Hr|]. rewrite (Hkeep H). reflexivity.
Defined.

(** ** Encoding of URI components *)

Lemma hexDigit_safe (d : N) : (d < 16)%N -> isUriSafe (hexDigit d) = true.
Proof.
  intros Hd. unfold isUriSafe, uriUnescaped. apply orb_true_iff. left.
  apply orb_true_iff. left. apply isAlnum_range. unfold hexDigit.
  change (chr "0") with 48%N. change (chr "A") with 65%N.
  destruct (N.ltb_spec d 10); lia.
Qed.

Lemma pct_safe (b : N) : (b < 256)%N -> forallb isUriSafe (pct b) = true.
Proof.
  intros Hb. unfold pct. cbn [forallb].
  rewrite !hexDigit_safe; [reflexivity | now apply N.mod_lt |].
  apply N.Div0.div_lt_upper_bound. lia.
Qed.

Lemma utf8_octets (cp : N) :
  (cp < 1114112)%N -> Forall (fun b => (b < 256)%N) (utf8 cp).
Proof.
  intros Hcp. unfold utf8.
  assert (Hmod : forall x, (128 + x mod 64 < 256)%N).
  { intros x. pose proof (N.mod_lt x 64). lia. }
  destruct (N.ltb_spec cp 128); [repeat constructor; lia|].
  destruct (N.ltb_spec cp 2048).
  { repeat constructor; [|apply Hmod].
    assert (cp / 64 < 32)%N by (apply N.Div0.div_lt_upper_bound; lia). lia. }
  destruct (N.ltb_spec cp 65536).
  { repeat constructor; try apply Hmod.
    assert (cp / 4096 < 16)%N by (apply N.Div0.div_lt_upper_bound; lia). lia. }
  repeat constructor; try apply Hmod.
  assert (cp / 262144 < 5)%N by (apply N.Div0.div_lt_upper_bound; lia). lia.
Qed.

Lemma octets_safe (bs : list N) :
  Forall (fun b => (b < 256)%N) bs -> forallb isUriSafe (flat_map pct bs) = true.
Proof.
  induction 1 as [|b bs Hb _ IH]; [reflexivity|].
  cbn [flat_map]. rewrite forallb_app, IH, pct_safe by exact Hb. reflexivity.
Qed.

Lemma encodeURIComponent_safe_upto (n : nat) : forall s q,
  length s <= n -> isCodeUnits s = true ->
  encodeURIComponent s = Returns q -> forallb isUriSafe q = true.
Proof.
  induction n as [|n IH]; intros s q Hn Hs Hq.
  - destruct s; [|cbn [length] in Hn; lia]. injection Hq as <-. reflexivity.
  - destruct s as [|c t]; [injection Hq as <-; reflexivity|].
    cbn [length] in Hn. cbn [isCodeUnits forallb] in Hs.
    apply andb_true_iff in Hs as [Hc Ht]. apply N.ltb_lt in Hc.
    cbn [encodeURIComponent] in Hq.
    destruct (uriUnescaped c) eqn:Hu.
    + destruct (encodeURIComponent t) as [r|] eqn:Hr; [|discriminate].
      injection Hq as <-. cbn [forallb]. unfold isUriSafe at 1. rewrite Hu.
      apply (IH t r); [lia | exact Ht | exact Hr].
    + destruct (isLowSurrogate c) eqn:Hlow; [discriminate|].
      destruct (isHighSurrogate c) eqn:Hhigh.
      * destruct t as [|d t']; [discriminate|].
        destruct (isLowSurrogate d) eqn:Hd; [|discriminate].
        destruct (encodeURIComponent t') as [r|] eqn:Hr; [|discriminate].
        injection Hq as <-. cbn [forallb] in Ht.
        apply andb_true_iff in Ht as [_ Ht']. cbn [length] in Hn.
        rewrite forallb_app, (IH t' r) by (lia || assumption).
        rewrite andb_true_r. apply octets_safe, utf8_octets.
        unfold isHighSurrogate in Hhigh. unfold isLowSurrogate in Hd.
        apply andb_true_iff in Hhigh as [H1 H2]. apply andb_true_iff in Hd as [H3 H4].
        apply N.leb_le in H1, H2, H3, H4. lia.
      * destruct (encodeURIComponent t) as [r|] eqn:Hr; [|discriminate].
        injection Hq as <-.
        rewrite forallb_app, (IH t r) by (lia || assumption).
        rewrite andb_true_r. apply octets_safe, utf8_octets. lia.
Qed.

(** X25: whatever [encodeURIComponent] returns is made of unreserved
    characters and percent signs only, so that the path placed after
    [redirect=] cannot end the parameter or start another one. *)
Theorem encodeURIComponent_output_safe (s q : jsstring) :
  isCodeUnits s = true -> encodeURIComponent s = Returns q ->
  forallb isUriSafe q = true.
Proof. intros Hs Hq. now apply (encodeURIComponent_safe_upto (length s) s q). Qed.

Lemma encodeURIComponent_output_safe_witness :
  isCodeUnits (lit "/admin?x=1&y=2") = true
  /\ encodeURIComponent (lit "/admin?x=1&y=2") = Returns (lit "%2Fadmin%3Fx%3D1%26y%3D2")
  /\ forallb isUriSafe (lit "%2Fadmin%3Fx%3D1%26y%3D2") = true.
Proof.
  assert (H1 : isCodeUnits (lit "/admin?x=1&y=2") = true) by reflexivity.
  assert (H2 : encodeURIComponent (lit "/admin?x=1&y=2")
               = Returns (lit "%2Fadmin%3Fx%3D1%26y%3D2")) by reflexivity.
  split; [exact H1|]. split; [exact H2|].
  exact (encodeURIComponent_output_safe _ _ H1 H2).
Defined.

(** X26: on ASCII text [encodeURIComponent] always returns, and reading the
    percent escapes back gives the text again; two different ASCII paths are
    therefore never encoded alike. *)
Theorem encodeURIComponent_round_trip (s t : jsstring) :
  isAscii s = true -> isAscii t = true ->
  (exists q, encodeURIComponent s = Returns q /\ percentDecode q = s)
  /\ (encodeURIComponent s = encodeURIComponent t -> s = t).
Proof.
  intros Hs Ht.
  destruct (encodeURIComponent_ascii s Hs) as (q & Hq & Hdec).
  destruct (encodeURIComponent_ascii t Ht) as (q' & Hq' & Hdec').
  split; [now exists q|].
  rewrite Hq, Hq'. intros E. injection E as ->. congruence.
Qed.

Lemma encodeURIComponent_round_trip_witness :
  isAscii (lit "/admin/a b") = true
  /\ exists q, encodeURIComponent (lit "/admin/a b") = Returns q
               /\ percentDecode q = lit "/admin/a b".
Proof.
  assert (H : isAscii (lit "/admin/a b") = true) by reflexivity.
  split; [exact H|].
  exact (proj1 (encodeURIComponent_round_trip (lit "/admin/a b") (lit "/admin/a b") H H)).
Defined.

(** ** The first version of the gate *)

Lemma v1_path_is_private (pathname : jsstring) :
  somePrefix PRIVATE_PATHS_V1 pathname = true ->
  somePrefix PRIVATE_PATHS pathname = true.
Proof.
  unfold somePrefix at 1, PRIVATE_PATHS_V1. cbn [existsb]. intros H.
  repeat (apply orb_true_iff in H as [H|H]); try discriminate H;
    apply startsWith_app in H as [rest ->]; vm_compute; reflexivity.
Qed.

(** X27: the hardened gate protects every path the first version protected: an
    anonymous request that the first version redirected to the bare sign-in
    page is still answered with a 302 to the sign-in page, now with the
    requested path in the redirect parameter and the security headers. *)
Theorem onRequest_protects_v1_paths nodeEnv (pathname : jsstring)
    (next : Locals -> outcome Response) :
  somePrefix PRIVATE_PATHS_V1 pathname = true -> isAscii pathname = true ->
  onRequestV1 (Returns None) pathname next
  = Returns (newResponse 302 (lit "Location") (lit "/connexion"))
  /\ exists q,
       encodeURIComponent pathname = Returns q
       /\ onRequest nodeEnv (Returns None) pathname next
          = {| response :=
                 addSecurityHeaders nodeEnv
                   (newResponse 302 (lit "Location") (lit "/connexion?redirect=" ++ q));
               consoleError := [] |}.
Proof.
  intros Hv1 Hascii. split.
  - unfold onRequestV1. cbn [bind fmap option_fmap option_map user].
    rewrite Hv1. rewrite bool_decide_eq_true_2 by exact eq_refl. exact eq_refl.
  - destruct (encodeURIComponent_ascii pathname Hascii) as (q & Hq & _).
    exists q. split; [exact Hq|].
    apply onRequest_headers_without_fault; [|exact eq_refl].
    rewrite route_table. cbn [fmap option_fmap option_map user].
    rewrite (v1_path_is_private pathname Hv1). unfold redirectToSignIn.
    rewrite Hq. exact eq_refl.
Qed.

Lemma onRequest_protects_v1_paths_witness :
  somePrefix PRIVATE_PATHS_V1 (lit "/profil") = true
  /\ isAscii (lit "/profil") = true
  /\ onRequestV1 (Returns None) (lit "/profil") servePage
     = Returns (newResponse 302 (lit "Location") (lit "/connexion")).
Proof.
  assert (H1 : somePrefix PRIVATE_PATHS_V1 (lit "/profil") = true)
    by (vm_compute; reflexivity).
  assert (H2 : isAscii (lit "/profil") = true) by (vm_compute; reflexivity).
  split; [exact H1|]. split; [exact H2|].
  exact (proj1 (onRequest_protects_v1_paths None (lit "/profil") servePage H1 H2)).
Defined.

(** ** Sending a one-time code *)

Lemma isDigit_not_special (c : N) : isDigit c = true -> isSpecial c = false.
Proof.
  intros H. apply usernameChar_plain. unfold isUsernameChar, isAlnum.
  rewrite H. now rewrite orb_true_r.
Qed.

Lemma sanitizeHtml_digits (s : jsstring) :
  forallb isDigit s = true -> sanitizeHtml s = s.
Proof.
  induction s as [|c s IH]; [intros _; exact eq_refl|].
  cbn [forallb]. intros H. apply andb_true_iff in H as [Hc Hs].
  rewrite sanitizeHtml_cons, (escapeChar_other c (isDigit_not_special c Hc)), (IH Hs).
  exact eq_refl.
Qed.

(** X28: on everything that passes the checks of [sendVerificationOTP] the two
    sanitizer calls change nothing: an accepted code is six digits and is
    placed in the page as it is, and each of the three subjects is free of
    special characters. *)
Theorem sendVerificationOTP_sanitizer_is_identity (type otp : jsstring) :
  isValidOTP otp = true ->
  sanitizeHtml otp = otp /\ sanitizeHtml (otpSubject type) = otpSubject type.
Proof.
  intros H. apply isValidOTP_digits in H as [_ Hdigits]. split.
  - now apply sanitizeHtml_digits.
  - unfold otpSubject.
    destruct (streq type (lit "sign-in"));
      [|destruct (streq type (lit "email-verification"))];
      vm_compute; reflexivity.
Qed.

Lemma sendVerificationOTP_sanitizer_is_identity_witness :
  isValidOTP (lit "042137") = true
  /\ sanitizeHtml (lit "042137") = lit "042137".
Proof.
  assert (H : isValidOTP (lit "042137") = true) by (vm_compute; reflexivity).
  split; [exact H|].
  exact (proj1 (sendVerificationOTP_sanitizer_is_identity (lit "sign-in") (lit "042137") H)).
Defined.

Ltac rejected :=
  intros _; unfold otpRejected; cbn [otpMails otpLog otpErrorLog otpThrown];
  split; [exact eq_refl|]; split; [exact eq_refl|]; split; [exact eq_refl|];
  eexists; exact eq_refl.

Lemma empty_inputs_invalid :
  isValidEmail [] = false /\ isValidOTP [] = false
  /\ arrayIncludes validTypes [] = false.
Proof. repeat split; vm_compute; reflexivity. Qed.

(** X29: [sendVerificationOTP] checks before it acts.  Unless the address, the
    code and the type are all valid it throws without logging anything and
    without calling [sendEmail]; when they are, it calls [sendEmail] once with
    the address and the texts made for the type.  If that call rejects, it
    throws one fixed message, whatever was thrown, and logs no success.  If
    the call resolves, nothing is thrown and the success line is logged
    whatever the result says: a result with [success] false, which is how
    the transport reports a message it could not send, passes for a sent
    code. *)
Theorem sendVerificationOTP_checks_first
    (sendEmail : EmailOptions -> SendOutcome) (email otp type : jsstring) :
  let run := sendVerificationOTP sendEmail email otp type in
  let mail := {| mailTo := email; mailSubject := otpSubject type;
                 mailHtml := otpHtml type otp; mailText := otpText type otp |} in
  (isValidEmail email && isValidOTP otp && arrayIncludes validTypes type = false ->
   otpMails run = [] /\ otpLog run = [] /\ otpErrorLog run = []
   /\ exists message, otpThrown run = Some message)
  /\ (isValidEmail email && isValidOTP otp && arrayIncludes validTypes type = true ->
      otpMails run = [mail]
      /\ (forall result, sendEmail mail = Resolves result ->
            otpThrown run = None /\ otpErrorLog run = []
            /\ otpLog run
               = [lit "Sending OTP to " ++ maskEmail email ++ lit " for " ++ type;
                  lit "OTP sent successfully for " ++ type])
      /\ (forall thrown, sendEmail mail = Rejects thrown ->
            otpThrown run = Some MSG_OTP_NOT_SENT
            /\ otpLog run
               = [lit "Sending OTP to " ++ maskEmail email ++ lit " for " ++ type]
            /\ length (otpErrorLog run) = 1)).
Proof.
  cbv zeta. destruct empty_inputs_invalid as (He & Ho & Ht).
  unfold sendVerificationOTP.
  destruct email as [|e0 email'].
  { rewrite He. cbn [isEmpty orb andb]. split; [|discriminate].
    rejected. }
  destruct otp as [|o0 otp'].
  { rewrite Ho, andb_false_r. cbn [isEmpty orb andb]. split; [|discriminate].
    rejected. }
  destruct type as [|t0 type'].
  { rewrite Ht, andb_false_r. cbn [isEmpty orb]. split; [|discriminate].
    rejected. }
  cbn [isEmpty orb].
  destruct (isValidEmail (e0 :: email')); cbn [negb andb];
    [|split; [|discriminate]; rejected].
  destruct (isValidOTP (o0 :: otp')); cbn [negb andb];
    [|split; [|discriminate]; rejected].
  destruct (arrayIncludes validTypes (t0 :: type')); cbn [negb];
    [|split; [|discriminate]; rejected].
  split; [discriminate|]. intros _.
  destruct (sendEmail _) as [result|thrown];
    cbn [otpMails otpThrown otpLog otpErrorLog].
  - split; [exact eq_refl|]. split.
    + intros result' _. split; [exact eq_refl|]. split; exact eq_refl.
    + intros thrown' H. discriminate H.
  - split; [exact eq_refl|]. split.
    + intros result' H. discriminate H.
    + intros thrown' _. split; [exact eq_refl|]. split; exact eq_refl.
Qed.

Lemma sendVerificationOTP_checks_first_witness :
  isValidEmail (lit "user@example.com") && isValidOTP (lit "123456")
    && arrayIncludes validTypes (lit "sign-in") = true
  /\ failingTransport
       {| mailTo := lit "user@example.com";
          mailSubject := otpSubject (lit "sign-in");
          mailHtml := otpHtml (lit "sign-in") (lit "123456");
          mailText := otpText (lit "sign-in") (lit "123456") |}
     = Resolves {| success := false;
                   resultMessage := lit "Données d'email invalides" |}
  /\ otpThrown (sendVerificationOTP failingTransport (lit "user@example.com")
                  (lit "123456") (lit "sign-in")) = None.
Proof.
  assert (H : isValidEmail (lit "user@example.com") && isValidOTP (lit "123456")
                && arrayIncludes validTypes (lit "sign-in") = true)
    by (vm_compute; reflexivity).
  assert (Hsend : failingTransport
       {| mailTo := lit "user@example.com";
          mailSubject := otpSubject (lit "sign-in");
          mailHtml := otpHtml (lit "sign-in") (lit "123456");
          mailText := otpText (lit "sign-in") (lit "123456") |}
     = Resolves {| success := false;
                   resultMessage := lit "Données d'email invalides" |})
    by exact eq_refl.
  split; [exact H|]. split; [exact Hsend|].
  exact (proj1 (proj1 (proj2 (proj2 (sendVerificationOTP_checks_first failingTransport
                         (lit "user@example.com") (lit "123456") (lit "sign-in")) H))
                  _ Hsend)).
Defined.

(** A transport that reports a failed send by its result, and one that
    rejects: only the second makes [sendVerificationOTP] throw. *)
Example sendVerificationOTP_unsent_code :
  let resolved := sendVerificationOTP failingTransport (lit "user@example.com")
                    (lit "123456") (lit "sign-in") in
  let refused := sendVerificationOTP (fun _ => Rejects (ErrorWith (lit "ECONNREFUSED")))
                   (lit "user@example.com") (lit "123456") (lit "sign-in") in
  resolved = sendVerificationOTP acceptingTransport (lit "user@example.com")
               (lit "123456") (lit "sign-in")
  /\ otpThrown resolved = None
  /\ otpLog resolved = [lit "Sending OTP to us***@example.com for sign-in";
                        lit "OTP sent successfully for sign-in"]
  /\ otpThrown refused = Some MSG_OTP_NOT_SENT
  /\ otpErrorLog refused = [[lit "Erreur envoi OTP:"; lit "ECONNREFUSED"]].
Proof. vm_compute. repeat split; reflexivity. Qed.

(** *** The address in the log *)

Lemma isLocalChar_visible (c : N) :
  isLocalChar c = true ->
  isLineTerminator c = false /\ (c =? chr "@")%N = false.
Proof.
  intros H. destruct (isLocalChar_plain c H) as [Hlt Hne].
  split; [|now apply N.eqb_neq].
  unfold isLineTerminator. rewrite !orb_false_iff, !N.eqb_neq.
  assert (Hlow : (33 <= c)%N).
  { unfold isLocalChar, oneOf in H. cbn [bytes existsb] in H.
    rewrite !orb_true_iff, !N.eqb_eq in H.
    repeat match goal with G : _ \/ _ |- _ => destruct G as [G|G] end;
      try discriminate;
      try (apply isAlnum_range in H; lia);
      subst c; vm_compute; discriminate. }
  lia.
Qed.

Lemma splitLine_plain (s : jsstring) :
  forallb isLocalChar s = true -> splitLine s = (s, []).
Proof.
  induction s as [|c s IH]; [intros _; exact eq_refl|].
  cbn [forallb]. intros H. apply andb_true_iff in H as [Hc Hs].
  cbn [splitLine]. rewrite (proj1 (isLocalChar_visible c Hc)), (IH Hs).
  exact eq_refl.
Qed.

Lemma fromLastAt_none (s : jsstring) :
  forallb isLocalChar s = true -> fromLastAt s = None.
Proof.
  induction s as [|c s IH]; [intros _; exact eq_refl|].
  cbn [forallb]. intros H. apply andb_true_iff in H as [Hc Hs].
  cbn [fromLastAt]. rewrite (IH Hs), (proj2 (isLocalChar_visible c Hc)).
  exact eq_refl.
Qed.

Lemma fromLastAt_single (l d : jsstring) :
  forallb isLocalChar d = true ->
  fromLastAt (l ++ chr "@" :: d) = Some (chr "@" :: d).
Proof.
  intros Hd. induction l as [|c l IH].
  - cbn [app fromLastAt]. rewrite (fromLastAt_none d Hd), N.eqb_refl. exact eq_refl.
  - cbn [app fromLastAt]. rewrite IH. exact eq_refl.
Qed.

(** Without an @ there is nothing to mask. *)
Lemma maskEmail_without_at (s : jsstring) :
  forallb isLocalChar s = true -> maskEmail s = s.
Proof.
  induction s as [|a t IH]; [intros _; exact eq_refl|].
  cbn [forallb]. intros H. apply andb_true_iff in H as [Ha Ht].
  specialize (IH Ht). destruct t as [|b u]; [exact eq_refl|].
  cbn [forallb] in Ht. apply andb_true_iff in Ht as [Hb Hu].
  change (maskEmail (a :: b :: u))
    with (if negb (isLineTerminator a) && negb (isLineTerminator b) then
            let '(line, rest) := splitLine u in
            match fromLastAt line with
            | Some g => a :: b :: lit "***" ++ g ++ rest
            | None => a :: maskEmail (b :: u)
            end
          else a :: maskEmail (b :: u)).
  rewrite IH, (splitLine_plain u Hu), (fromLastAt_none u Hu).
  now destruct (negb (isLineTerminator a) && negb (isLineTerminator b)).
Qed.

(** X30: what the log shows of an accepted address: when the part before the
    @ has two code units or more, its first two, three stars, and the @ with
    the domain; when it has only one, the whole address, unmasked. *)
Theorem maskEmail_of_accepted_address (email : jsstring) :
  isValidEmail email = true ->
  exists local domain,
    email = local ++ chr "@" :: domain
    /\ (2 <= length local ->
        maskEmail email = firstn 2 local ++ lit "***" ++ chr "@" :: domain)
    /\ (length local = 1 -> maskEmail email = email).
Proof.
  intros H. apply isValidEmail_shape in H
    as (local & first & others & -> & _ & Hlocal & Hfirst & Hothers & _).
  pose proof (joinLabels_localChars first others Hfirst Hothers) as Hdomain.
  exists local, (joinLabels first others). split; [exact eq_refl|].
  generalize dependent (joinLabels first others). intros domain Hdomain.
  assert (Hat : isLineTerminator (chr "@") = false) by (vm_compute; reflexivity).
  destruct local as [|a [|b l]].
  - split; intros Hlen; cbn [length] in Hlen; lia.
  - split; [intros Hlen; cbn [length] in Hlen; lia|]. intros _.
    cbn [forallb] in Hlocal. apply andb_true_iff in Hlocal as [Ha _].
    destruct (isLocalChar_visible a Ha) as [Hla _].
    change (maskEmail ([a] ++ chr "@" :: domain))
      with (if negb (isLineTerminator a) && negb (isLineTerminator (chr "@")) then
              let '(line, rest) := splitLine domain in
              match fromLastAt line with
              | Some g => a :: chr "@" :: lit "***" ++ g ++ rest
              | None => a :: maskEmail (chr "@" :: domain)
              end
            else a :: maskEmail (chr "@" :: domain)).
    rewrite Hla, Hat, (splitLine_plain domain Hdomain), (fromLastAt_none domain Hdomain).
    cbn [negb andb app]. f_equal.
    destruct domain as [|d u]; [exact eq_refl|].
    cbn [forallb] in Hdomain. apply andb_true_iff in Hdomain as [Hd Hu].
    change (maskEmail (chr "@" :: d :: u))
      with (if negb (isLineTerminator (chr "@")) && negb (isLineTerminator d) then
              let '(line, rest) := splitLine u in
              match fromLastAt line with
              | Some g => chr "@" :: d :: lit "***" ++ g ++ rest
              | None => chr "@" :: maskEmail (d :: u)
              end
            else chr "@" :: maskEmail (d :: u)).
    rewrite (splitLine_plain u Hu), (fromLastAt_none u Hu).
    rewrite (maskEmail_without_at (d :: u))
      by (cbn [forallb]; now rewrite Hd, Hu).
    now destruct (negb (isLineTerminator (chr "@")) && negb (isLineTerminator d)).
  - split; [|intros Hlen; cbn [length] in Hlen; lia]. intros _.
    cbn [forallb] in Hlocal. apply andb_true_iff in Hlocal as [Ha Hlocal].
    apply andb_true_iff in Hlocal as [Hb Hl].
    destruct (isLocalChar_visible a Ha) as [Hla _].
    destruct (isLocalChar_visible b Hb) as [Hlb _].
    assert (Hrest : forallb isLocalChar (l ++ domain) = true)
      by (rewrite forallb_app; now rewrite Hl, Hdomain).
    assert (Hsplit : splitLine (l ++ chr "@" :: domain) = (l ++ chr "@" :: domain, [])).
    { clear -Hl Hdomain Hat. induction l as [|c l IH].
      - cbn [app splitLine]. rewrite Hat, (splitLine_plain domain Hdomain).
        exact eq_refl.
      - cbn [forallb] in Hl. apply andb_true_iff in Hl as [Hc Hl].
        cbn [app splitLine]. rewrite (proj1 (isLocalChar_visible c Hc)), (IH Hl).
        exact eq_refl. }
    change (maskEmail ((a :: b :: l) ++ chr "@" :: domain))
      with (if negb (isLineTerminator a) && negb (isLineTerminator b) then
              let '(line, rest) := splitLine (l ++ chr "@" :: domain) in
              match fromLastAt line with
              | Some g => a :: b :: lit "***" ++ g ++ rest
              | None => a :: maskEmail (b :: l ++ chr "@" :: domain)
              end
            else a :: maskEmail (b :: l ++ chr "@" :: domain)).
    rewrite Hla, Hlb, Hsplit, (fromLastAt_single l domain Hdomain).
    cbn [negb andb firstn app]. now rewrite app_nil_r.
Qed.

Lemma maskEmail_of_accepted_address_witness :
  isValidEmail (lit "jeanne@example.org") = true
  /\ exists local domain,
       lit "jeanne@example.org" = local ++ chr "@" :: domain
       /\ (length local = 1 -> maskEmail (lit "jeanne@example.org")
                               = lit "jeanne@example.org").
Proof.
  assert (H : isValidEmail (lit "jeanne@example.org") = true)
    by (vm_compute; reflexivity).
  split; [exact H|].
  destruct (maskEmail_of_accepted_address (lit "jeanne@example.org") H)
    as (local & domain & Heq & _ & Hone).
  exists local, domain. split; [exact Heq | exact Hone].
Defined.

Example maskEmail_examples :
  maskEmail (lit "jeanne@example.org") = lit "je***@example.org"
  /\ maskEmail (lit "j@example.org") = lit "j@example.org".
Proof. split; vm_compute; reflexivity. Qed.
